(** * MusicStream: the per-chat queue store, the playback simulation and the
      command handlers of the Telegram music bot, embedded in Rocq.

    The embedding follows the Python sources:
    - [config.py]           -> module [Config]
    - [queue_manager.py]    -> module [QueueManager]
    - [music_player.py]     -> module [MusicPlayer]
    - [bot.py]              -> module [MusicBot]

    Dictionaries keyed by chat id are [gmap Z _]; Python lists are Rocq lists;
    Python [int]s are [Z]. *)

From Stdlib Require Import ZArith Ascii String List Lia.
From stdpp Require Import gmap strings list.

Local Open Scope Z_scope.

(** ** Song information

    The dictionary built by [YouTubeDownloader.search_and_download]: it always
    carries exactly these five keys. *)
Record Track := mkTrack {
  title : string;
  url : string;
  file_path : string;
  duration : Z;
  uploader : string
}.

(** The test of [remove_from_queue]:
    [song['title'] == song_info['title'] and song['url'] == song_info['url']]. *)
Definition same_song (song_info song : Track) : Prop :=
  title song = title song_info ∧ url song = url song_info.

#[global] Instance same_song_dec song_info song : Decision (same_song song_info song).
Proof. unfold same_song. apply _. Defined.

(** Sample songs for the worked examples. *)
Definition songA : Track :=
  mkTrack "A" "https://www.youtube.com/watch?v=a" "./downloads/A.mp3" 180 "Ann".
Definition songB : Track :=
  mkTrack "B" "https://www.youtube.com/watch?v=b" "./downloads/B.mp3" 200 "Bob".
Definition songC : Track :=
  mkTrack "C" "https://www.youtube.com/watch?v=c" "./downloads/C.mp3" 90 "Cy".

Module Config.
(** [MAX_QUEUE_SIZE: int = int(os.getenv("MAX_QUEUE_SIZE", "20"))]: the value
    when the environment does not override it. *)
Definition default_MAX_QUEUE_SIZE : Z := 20.
End Config.

(** ** queue_manager.py *)
Module QueueManager.

(** [self.queues: Dict[int, List[Dict]] = defaultdict(list)] *)
Abbreviation Queues := (gmap Z (list Track)).

(** [self.queues[chat_id]] on a [defaultdict(list)]: a missing key is created
    with an empty list, and that list is the value of the expression. *)
Definition getitem (chat_id : Z) (qs : Queues) : list Track * Queues :=
  match qs !! chat_id with
  | Some queue => (queue, qs)
  | None => ([], <[chat_id := []]> qs)
  end.

(** What a chat's queue holds: a chat without an entry has the empty queue. *)
Definition contents (qs : Queues) (chat_id : Z) : list Track :=
  default [] (qs !! chat_id).

(** A 1-based position that names an entry of the chat's queue. *)
Definition valid_position (qs : Queues) (chat_id : Z) (pos : Z) : Prop :=
  1 <= pos <= Z.of_nat (length (contents qs chat_id)).

(** [queue.insert(idx, song)] for [0 <= idx]: an index past the end appends. *)
Definition list_insert_at {A} (idx : nat) (x : A) (l : list A) : list A :=
  take idx l ++ x :: drop idx l.

Record QueueStatus := mkQueueStatus {
  status_size : Z;
  status_max_size : Z;
  status_current_song : option Track;
  status_next_song : option Track;
  status_has_more : bool;
  status_is_full : bool
}.

Section Ops.
(** [Config.MAX_QUEUE_SIZE], read once from the environment. *)
Variable MAX_QUEUE_SIZE : Z.

Definition add_to_queue (chat_id : Z) (song_info : Track) (qs : Queues)
  : Z * Queues :=
  let '(queue, qs1) := getitem chat_id qs in
  if Z.of_nat (length queue) >=? MAX_QUEUE_SIZE then (-1, qs1)
  else
    let queue' := queue ++ [song_info] in
    let position := Z.of_nat (length queue') in
    (position, <[chat_id := queue']> qs1).

(** The dictionary of [get_queue_status], one field per key. *)
Definition get_queue_status (chat_id : Z) (qs : Queues)
  : QueueStatus * Queues :=
  let '(queue, qs1) := getitem chat_id qs in
  ({| status_size := Z.of_nat (length queue);
      status_max_size := MAX_QUEUE_SIZE;
      status_current_song := head queue;
      status_next_song := if (1 <? length queue)%nat then queue !! 1%nat
                          else None;
      status_has_more := (2 <? length queue)%nat;
      status_is_full := Z.of_nat (length queue) >=? MAX_QUEUE_SIZE |},
   qs1).
End Ops.

(** The loop of [remove_from_queue]: the first [i] with a matching song is
    popped; without a match nothing is removed. *)
Definition remove_from_queue (chat_id : Z) (song_info : Track) (qs : Queues)
  : bool * Queues :=
  let '(queue, qs1) := getitem chat_id qs in
  match list_find (same_song song_info) queue with
  | Some (i, _) => (true, <[chat_id := delete i queue]> qs1)
  | None => (false, qs1)
  end.

Definition get_current_song (chat_id : Z) (qs : Queues)
  : option Track * Queues :=
  let '(queue, qs1) := getitem chat_id qs in
  match queue with
  | song :: _ => (Some song, qs1)
  | [] => (None, qs1)
  end.

Definition get_next_song (chat_id : Z) (qs : Queues)
  : option Track * Queues :=
  let '(queue, qs1) := getitem chat_id qs in
  if (1 <? length queue)%nat then (queue !! 1%nat, qs1) else (None, qs1).

(** [self.queues[chat_id].copy()] *)
Definition get_queue (chat_id : Z) (qs : Queues) : list Track * Queues :=
  getitem chat_id qs.

(** [clear_queue] tests [chat_id in self.queues] and so creates no entry. *)
Definition clear_queue (chat_id : Z) (qs : Queues) : bool * Queues :=
  match qs !! chat_id with
  | Some _ => (true, <[chat_id := []]> qs)
  | None => (false, qs)
  end.

Definition get_queue_size (chat_id : Z) (qs : Queues) : Z * Queues :=
  let '(queue, qs1) := getitem chat_id qs in (Z.of_nat (length queue), qs1).

(** [move_song]: positions are 1-based Python ints. [queue.pop(from_idx)]
    cannot raise once the range test has passed; the [None] branch stands for
    the [except] clause. *)
Definition move_song (chat_id : Z) (from_position to_position : Z)
  (qs : Queues) : bool * Queues :=
  let '(queue, qs1) := getitem chat_id qs in
  let queue_size := Z.of_nat (length queue) in
  let from_idx := from_position - 1 in
  let to_idx := to_position - 1 in
  if negb ((0 <=? from_idx) && (from_idx <? queue_size)
           && (0 <=? to_idx) && (to_idx <? queue_size))
  then (false, qs1)
  else
    match queue !! Z.to_nat from_idx with
    | Some song =>
        let popped := delete (Z.to_nat from_idx) queue in
        (true, <[chat_id := list_insert_at (Z.to_nat to_idx) song popped]> qs1)
    | None => (false, qs1)
    end.

Section Shuffle.
(** One call of [random.shuffle]: the order it leaves a list in. *)
Variable random_shuffle : list Track → list Track.

Definition shuffle_queue (chat_id : Z) (preserve_current : bool)
  (qs : Queues) : bool * Queues :=
  let '(queue, qs1) := getitem chat_id qs in
  if (length queue <=? 1)%nat then (false, qs1)
  else
    match preserve_current, queue with
    | true, current_song :: remaining_songs =>
        (true,
         <[chat_id := [current_song] ++ random_shuffle remaining_songs]> qs1)
    | _, _ => (true, <[chat_id := random_shuffle queue]> qs1)
    end.
End Shuffle.

(** The calls a client can make on the store, for talking about every state
    the store can be brought into. A shuffle carries the outcome of its
    [random.shuffle] call. *)
Inductive QueueOp :=
| OpAdd (chat_id : Z) (song_info : Track)
| OpRemove (chat_id : Z) (song_info : Track)
| OpCurrent (chat_id : Z)
| OpNext (chat_id : Z)
| OpGet (chat_id : Z)
| OpClear (chat_id : Z)
| OpSize (chat_id : Z)
| OpStatus (chat_id : Z)
| OpMove (chat_id : Z) (from_position to_position : Z)
| OpShuffle (chat_id : Z) (preserve_current : bool)
            (random_shuffle : list Track → list Track).

Definition apply_op (MAX_QUEUE_SIZE : Z) (op : QueueOp) (qs : Queues) : Queues :=
  match op with
  | OpAdd chat_id song_info => (add_to_queue MAX_QUEUE_SIZE chat_id song_info qs).2
  | OpRemove chat_id song_info => (remove_from_queue chat_id song_info qs).2
  | OpCurrent chat_id => (get_current_song chat_id qs).2
  | OpNext chat_id => (get_next_song chat_id qs).2
  | OpGet chat_id => (get_queue chat_id qs).2
  | OpClear chat_id => (clear_queue chat_id qs).2
  | OpSize chat_id => (get_queue_size chat_id qs).2
  | OpStatus chat_id => (get_queue_status MAX_QUEUE_SIZE chat_id qs).2
  | OpMove chat_id a b => (move_song chat_id a b qs).2
  | OpShuffle chat_id preserve_current random_shuffle =>
      (shuffle_queue random_shuffle chat_id preserve_current qs).2
  end.

(** [random.shuffle] only reorders. *)
Definition op_ok (op : QueueOp) : Prop :=
  match op with
  | OpShuffle _ _ random_shuffle => ∀ l, random_shuffle l ≡ₚ l
  | _ => True
  end.

Definition run_ops (MAX_QUEUE_SIZE : Z) (ops : list QueueOp) (qs : Queues)
  : Queues :=
  fold_left (λ acc op, apply_op MAX_QUEUE_SIZE op acc) ops qs.

(** The chat a call is made for. *)
Definition op_chat (op : QueueOp) : Z :=
  match op with
  | OpAdd c _ | OpRemove c _ | OpCurrent c | OpNext c | OpGet c | OpClear c
  | OpSize c | OpStatus c | OpMove c _ _ | OpShuffle c _ _ => c
  end.

(** The calls that only read. *)
Definition is_read (op : QueueOp) : bool :=
  match op with
  | OpCurrent _ | OpNext _ | OpGet _ | OpSize _ | OpStatus _ => true
  | _ => false
  end.

(** The calls that can put a song into a queue: only [add_to_queue]. *)
Definition is_add (op : QueueOp) : bool :=
  match op with
  | OpAdd _ _ => true
  | _ => false
  end.

End QueueManager.

(** ** music_player.py *)
Module MusicPlayer.

(** The four dictionaries of [MusicPlayer.__init__]. Of the process and thread
    handles only the keys are kept: the code never reads the values back
    except to terminate or drop them. *)
Record Player := mkPlayer {
  active_streams : gmap Z bool;
  paused_streams : gmap Z bool;
  current_processes : gset Z;
  playback_threads : gset Z
}.

Definition init : Player :=
  {| active_streams := ∅; paused_streams := ∅;
     current_processes := ∅; playback_threads := ∅ |}.

(** [chat_id in self.active_streams] *)
Definition in_active (p : Player) (chat_id : Z) : bool :=
  bool_decide (is_Some (active_streams p !! chat_id)).

(** [self.paused_streams.get(chat_id, False)] *)
Definition paused_flag (p : Player) (chat_id : Z) : bool :=
  default false (paused_streams p !! chat_id).

Definition stop_audio (chat_id : Z) (p : Player) : bool * Player :=
  if in_active p chat_id then
    (true,
     {| active_streams := delete chat_id (active_streams p);
        paused_streams := delete chat_id (paused_streams p);
        current_processes := current_processes p ∖ {[chat_id]};
        playback_threads := playback_threads p ∖ {[chat_id]} |})
  else (true, p).

Section FileSystem.
(** [os.path.exists] at the time of the call. *)
Variable path_exists : string → bool.

(** [play_audio] up to the start of the playback thread; what the thread
    does to the dictionaries later is [simulate_playback_finish]. *)
Definition play_audio (chat_id : Z) (file_path : string) (p : Player)
  : bool * Player :=
  if negb (path_exists file_path) then (false, p)
  else
    let p1 := if in_active p chat_id then (stop_audio chat_id p).2 else p in
    (true,
     {| active_streams := <[chat_id := true]> (active_streams p1);
        paused_streams := <[chat_id := false]> (paused_streams p1);
        current_processes := current_processes p1;
        playback_threads := {[chat_id]} ∪ playback_threads p1 |}).
End FileSystem.

(** The end of [simulate_playback], after its waiting loop has been left:
    the stream is dropped only when it is still active and not paused. *)
Definition simulate_playback_finish (chat_id : Z) (p : Player) : Player :=
  if in_active p chat_id && negb (paused_flag p chat_id) then
    {| active_streams := delete chat_id (active_streams p);
       paused_streams := delete chat_id (paused_streams p);
       current_processes := current_processes p;
       playback_threads := playback_threads p |}
  else p.

Definition pause_audio (chat_id : Z) (p : Player) : bool * Player :=
  if negb (in_active p chat_id) || paused_flag p chat_id then (false, p)
  else
    (true,
     {| active_streams := active_streams p;
        paused_streams := <[chat_id := true]> (paused_streams p);
        current_processes := current_processes p;
        playback_threads := playback_threads p |}).

Definition resume_audio (chat_id : Z) (p : Player) : bool * Player :=
  if negb (in_active p chat_id) || negb (paused_flag p chat_id) then (false, p)
  else
    (true,
     {| active_streams := active_streams p;
        paused_streams := <[chat_id := false]> (paused_streams p);
        current_processes := current_processes p;
        playback_threads := playback_threads p |}).

Definition is_playing (p : Player) (chat_id : Z) : bool :=
  in_active p chat_id && negb (paused_flag p chat_id).

Definition is_paused (p : Player) (chat_id : Z) : bool :=
  in_active p chat_id && paused_flag p chat_id.

(** The session state of a chat as the player's flags encode it. *)
Inductive PlaybackState := Idle | Playing | Paused.

Definition session_state (p : Player) (chat_id : Z) : PlaybackState :=
  if is_playing p chat_id then Playing
  else if is_paused p chat_id then Paused
  else Idle.

(** [cleanup]: every active stream is stopped, in the order of
    [list(self.active_streams.keys())], and the four dictionaries are
    cleared. *)
Definition cleanup (p : Player) : Player :=
  let stopped :=
    foldl (λ acc chat_id, (stop_audio chat_id acc).2) p
      ((map_to_list (active_streams p)).*1) in
  let _ := stopped in
  {| active_streams := ∅; paused_streams := ∅;
     current_processes := ∅; playback_threads := ∅ |}.

(** The calls that change the player, for talking about every state the
    player can be brought into. A start carries the file system of its
    moment. *)
Inductive PlayerOp :=
| PPlay (path_exists : string → bool) (chat_id : Z) (file_path : string)
| PStop (chat_id : Z)
| PPause (chat_id : Z)
| PResume (chat_id : Z)
| PFinish (chat_id : Z).

Definition apply_player_op (op : PlayerOp) (p : Player) : Player :=
  match op with
  | PPlay path_exists chat_id file_path =>
      (play_audio path_exists chat_id file_path p).2
  | PStop chat_id => (stop_audio chat_id p).2
  | PPause chat_id => (pause_audio chat_id p).2
  | PResume chat_id => (resume_audio chat_id p).2
  | PFinish chat_id => simulate_playback_finish chat_id p
  end.

Definition player_op_chat (op : PlayerOp) : Z :=
  match op with
  | PPlay _ c _ | PStop c | PPause c | PResume c | PFinish c => c
  end.

Definition run_player_ops (ops : list PlayerOp) (p : Player) : Player :=
  foldl (λ acc op, apply_player_op op acc) p ops.

(** The shape the dictionaries keep: a chat has a paused entry exactly when
    it has an active entry, every active entry is [True], every active chat
    has a thread handle, and no process handle is ever stored. *)
Definition player_ok (p : Player) : Prop :=
  (∀ c, is_Some (paused_streams p !! c) ↔ is_Some (active_streams p !! c)) ∧
  (∀ c v, active_streams p !! c = Some v → v = true) ∧
  (∀ c, is_Some (active_streams p !! c) → c ∈ playback_threads p) ∧
  current_processes p = ∅.

End MusicPlayer.

(** ** bot.py *)
Module MusicBot.
Import QueueManager MusicPlayer.

(** The two components a handler works on ([self.queue_manager] and
    [self.music_player]). *)
Record Bot := mkBot {
  queue_manager : gmap Z (list Track);
  music_player : Player
}.

Definition init : Bot :=
  {| queue_manager := ∅; music_player := MusicPlayer.init |}.

(** The texts the handlers send, one constructor per format string. *)
Inductive Message :=
| MsgWelcome
| MsgUsage
| MsgSearching (song_name : string)
| MsgNoResults
| MsgNowPlaying (song_title : string)
| MsgFailedToJoin
| MsgAddedToQueue (queue_position : Z) (song_title : string)
| MsgPaused
| MsgNoActivePlayback
| MsgResumed
| MsgNoPausedPlayback
| MsgStopped
| MsgNothingPlaying
| MsgSkippedNowPlaying (song_title : string)
| MsgSkippedNoMore
| MsgQueueEmpty
| MsgQueueList (titles : list string) (remaining : Z).

(** What a handler does to the outside, in order: messages to the chat and
    calls of the playback backend with their results. *)
Inductive Event :=
| Reply (m : Message)
| Edit (m : Message)
| BackendStart (chat_id : Z) (path : string) (success : bool)
| BackendPause (chat_id : Z) (success : bool)
| BackendResume (chat_id : Z) (success : bool)
| BackendStop (chat_id : Z).

(** Handlers thread the bot and accumulate their events. *)
Definition Handler (A : Type) : Type := Bot → A * Bot * list Event.

Definition ret {A} (a : A) : Handler A := λ b, (a, b, []).

Definition bind {A B} (m : Handler A) (k : A → Handler B) : Handler B :=
  λ b, let '(a, b1, t1) := m b in
       let '(r, b2, t2) := k a b1 in
       (r, b2, t1 ++ t2).

Declare Scope handler_scope.
Delimit Scope handler_scope with handler.
Notation "x <- m ;; k" := (bind m (λ x, k))
  (at level 100, m at next level, right associativity) : handler_scope.
Notation "m ;;; k" := (bind m (λ _, k))
  (at level 100, right associativity) : handler_scope.

Definition emit (e : Event) : Handler unit := λ b, (tt, b, [e]).

(** The three results of running a handler on a bot. *)
Definition value {A} (m : Handler A) (b : Bot) : A := (m b).1.1.
Definition exec {A} (m : Handler A) (b : Bot) : Bot := (m b).1.2.
Definition trace {A} (m : Handler A) (b : Bot) : list Event := (m b).2.

(** A call of a [QueueManager] method. *)
Definition on_queue {A} (f : gmap Z (list Track) → A * gmap Z (list Track))
  : Handler A :=
  λ b, let '(a, qs) := f (queue_manager b) in
       (a, {| queue_manager := qs; music_player := music_player b |}, []).

(** A call of a [MusicPlayer] method, with the event that records it. *)
Definition on_player (f : Player → bool * Player) (ev : bool → Event)
  : Handler bool :=
  λ b, let '(ok, p) := f (music_player b) in
       (ok, {| queue_manager := queue_manager b; music_player := p |}, [ev ok]).

Definition join_args (args : list string) : string :=
  match args with
  | [] => EmptyString
  | a :: rest => fold_left (λ acc s, acc +:+ " " +:+ s) rest a
  end.

Section Handlers.
Variable MAX_QUEUE_SIZE : Z.
Variable path_exists : string → bool.

Local Open Scope handler_scope.

Definition start_command : Handler unit := emit (Reply MsgWelcome).

Definition help_command : Handler unit := start_command.

(** [/play]: [result] is what [search_and_download] returned for the
    joined arguments. *)
Definition play_command (chat_id : Z) (args : list string)
  (result : option Track) : Handler unit :=
  match args with
  | [] => emit (Reply MsgUsage)
  | _ =>
      let song_name := join_args args in
      emit (Reply (MsgSearching song_name)) ;;;
      match result with
      | None => emit (Edit MsgNoResults)
      | Some result =>
          queue_position <-
            on_queue (add_to_queue MAX_QUEUE_SIZE chat_id result) ;;
          if queue_position =? 1 then
            emit (Edit (MsgNowPlaying (title result))) ;;;
            success <-
              on_player (play_audio path_exists chat_id (file_path result))
                        (BackendStart chat_id (file_path result)) ;;
            if negb success then
              emit (Reply MsgFailedToJoin) ;;;
              _ <- on_queue (remove_from_queue chat_id result) ;;
              ret tt
            else ret tt
          else
            emit (Edit (MsgAddedToQueue queue_position (title result)))
      end
  end.

Definition pause_command (chat_id : Z) : Handler unit :=
  ok <- on_player (pause_audio chat_id) (BackendPause chat_id) ;;
  if ok then emit (Reply MsgPaused) else emit (Reply MsgNoActivePlayback).

Definition resume_command (chat_id : Z) : Handler unit :=
  ok <- on_player (resume_audio chat_id) (BackendResume chat_id) ;;
  if ok then emit (Reply MsgResumed) else emit (Reply MsgNoPausedPlayback).

Definition stop_command (chat_id : Z) : Handler unit :=
  _ <- on_player (stop_audio chat_id) (λ _, BackendStop chat_id) ;;
  _ <- on_queue (clear_queue chat_id) ;;
  emit (Reply MsgStopped).

Definition skip_command (chat_id : Z) : Handler unit :=
  current_song <- on_queue (get_current_song chat_id) ;;
  match current_song with
  | None => emit (Reply MsgNothingPlaying)
  | Some current_song =>
      _ <- on_queue (remove_from_queue chat_id current_song) ;;
      next_song <- on_queue (get_current_song chat_id) ;;
      match next_song with
      | Some next_song =>
          emit (Reply (MsgSkippedNowPlaying (title next_song))) ;;;
          _ <- on_player
                 (play_audio path_exists chat_id (file_path next_song))
                 (BackendStart chat_id (file_path next_song)) ;;
          ret tt
      | None =>
          _ <- on_player (stop_audio chat_id) (λ _, BackendStop chat_id) ;;
          emit (Reply MsgSkippedNoMore)
      end
  end.

Definition queue_command (chat_id : Z) : Handler unit :=
  queue_list <- on_queue (get_queue chat_id) ;;
  match queue_list with
  | [] => emit (Reply MsgQueueEmpty)
  | _ =>
      emit (Reply (MsgQueueList
                     (title <$> take 10 queue_list)
                     (Z.max 0 (Z.of_nat (length queue_list) - 10))))
  end.

Definition _handle_song_finished (chat_id : Z) : Handler unit :=
  current_song <- on_queue (get_current_song chat_id) ;;
  (match current_song with
   | Some current_song =>
       _ <- on_queue (remove_from_queue chat_id current_song) ;; ret tt
   | None => ret tt
   end) ;;;
  next_song <- on_queue (get_current_song chat_id) ;;
  match next_song with
  | Some next_song =>
      _ <- on_player (play_audio path_exists chat_id (file_path next_song))
                     (BackendStart chat_id (file_path next_song)) ;;
      ret tt
  | None =>
      _ <- on_player (stop_audio chat_id) (λ _, BackendStop chat_id) ;;
      ret tt
  end.

(** The playback thread of a chat reaching the end of [simulate_playback]. *)
Definition playback_thread_finish (chat_id : Z) : Handler unit :=
  λ b, (tt, {| queue_manager := queue_manager b;
               music_player := simulate_playback_finish chat_id (music_player b) |},
        []).
End Handlers.

(** Everything that can happen to the bot: the commands of
    [_setup_handlers], the finished-song handler and the playback thread.
    The application handles one update at a time, so a handler runs to its
    end before the next event is looked at. *)
Inductive Update :=
| CmdStart (chat_id : Z)
| CmdHelp (chat_id : Z)
| CmdPlay (chat_id : Z) (args : list string) (result : option Track)
| CmdPause (chat_id : Z)
| CmdResume (chat_id : Z)
| CmdStop (chat_id : Z)
| CmdSkip (chat_id : Z)
| CmdQueue (chat_id : Z)
| SongFinished (chat_id : Z)
| ThreadFinish (chat_id : Z).

Definition handle (MAX_QUEUE_SIZE : Z) (path_exists : string → bool)
  (u : Update) : Handler unit :=
  match u with
  | CmdStart _ => start_command
  | CmdHelp _ => help_command
  | CmdPlay chat_id args result =>
      play_command MAX_QUEUE_SIZE path_exists chat_id args result
  | CmdPause chat_id => pause_command chat_id
  | CmdResume chat_id => resume_command chat_id
  | CmdStop chat_id => stop_command chat_id
  | CmdSkip chat_id => skip_command path_exists chat_id
  | CmdQueue chat_id => queue_command chat_id
  | SongFinished chat_id => _handle_song_finished path_exists chat_id
  | ThreadFinish chat_id => playback_thread_finish chat_id
  end.

(** A run: updates handled one after the other, each against the file system
    of its moment. *)
Fixpoint run (MAX_QUEUE_SIZE : Z) (us : list ((string → bool) * Update))
  : Handler unit :=
  match us with
  | [] => ret tt
  | (path_exists, u) :: rest =>
      bind (handle MAX_QUEUE_SIZE path_exists u) (λ _, run MAX_QUEUE_SIZE rest)
  end.

(** The bots a run can produce from the freshly constructed one. *)
Inductive reachable (MAX_QUEUE_SIZE : Z) : Bot → Prop :=
| reachable_init : reachable MAX_QUEUE_SIZE init
| reachable_step b path_exists u :
    reachable MAX_QUEUE_SIZE b →
    reachable MAX_QUEUE_SIZE (exec (handle MAX_QUEUE_SIZE path_exists u) b).

(** Two bots that agree on the player and on what every queue holds (they
    can differ only in empty entries that [defaultdict] created). *)
Definition bot_equiv (b1 b2 : Bot) : Prop :=
  music_player b1 = music_player b2 ∧
  ∀ c, contents (queue_manager b1) c = contents (queue_manager b2) c.

(** Whenever the player holds a stream for a chat, that chat's queue holds a
    song. *)
Definition active_has_queue (b : Bot) : Prop :=
  ∀ c, in_active (music_player b) c = true →
       contents (queue_manager b) c ≠ [].

(** A [/play] in the given chat. *)
Definition is_play_for (chat_id : Z) (fu : (string → bool) * Update) : Prop :=
  match fu.2 with
  | CmdPlay c _ _ => c = chat_id
  | _ => False
  end.

(** How many backend starts for a chat a trace holds. *)
Definition is_start (chat_id : Z) (e : Event) : bool :=
  match e with
  | BackendStart c _ _ => bool_decide (c = chat_id)
  | _ => false
  end.

Definition count_starts (chat_id : Z) (t : list Event) : nat :=
  length (filter (λ e, is_start chat_id e = true) t).

(** The chat an update belongs to ([update.effective_chat.id]). *)
Definition update_chat (u : Update) : Z :=
  match u with
  | CmdStart c | CmdHelp c | CmdPlay c _ _ | CmdPause c | CmdResume c
  | CmdStop c | CmdSkip c | CmdQueue c | SongFinished c | ThreadFinish c => c
  end.

End MusicBot.

(** ** youtube_downloader.py

    Only [_sanitize_filename] is a function of its argument alone; the rest
    of the class talks to yt-dlp, ffmpeg and the file system. A Python [str]
    is taken as the list of its characters. *)
Module YouTubeDownloader.

(** [invalid_chars]: less-than, greater-than, colon, double quote, slash,
    backslash, bar, question mark and star. *)
Definition invalid_chars : list ascii :=
  ["<"; ">"; ":"; "034"; "/"; "\"; "|"; "?"; "*"]%char.

(** [filename.replace(char, '_')] for a one-character [char]. *)
Definition replace_char (old new : ascii) (filename : list ascii)
  : list ascii :=
  (λ c, if decide (c = old) then new else c) <$> filename.

(** [str.lstrip(chars)], [str.rstrip(chars)] and [str.strip(chars)]: the
    longest run of characters of [chars] is taken off the front, the back,
    or both. *)
Fixpoint lstrip (chars : list ascii) (s : list ascii) : list ascii :=
  match s with
  | [] => []
  | c :: rest => if decide (c ∈ chars) then lstrip chars rest else s
  end.

Fixpoint rstrip (chars : list ascii) (s : list ascii) : list ascii :=
  match s with
  | [] => []
  | c :: rest =>
      match rstrip chars rest with
      | [] => if decide (c ∈ chars) then [] else [c]
      | kept => c :: kept
      end
  end.

Definition strip (chars : list ascii) (s : list ascii) : list ascii :=
  rstrip chars (lstrip chars s).

Definition strip_chars : list ascii := [" "; "."]%char.

Definition unknown_song : list ascii := list_ascii_of_string "unknown_song".

Definition sanitize_chars (filename : list ascii) : list ascii :=
  let filename :=
    foldl (λ acc char, replace_char char "_"%char acc) filename invalid_chars in
  let filename :=
    if (100 <? length filename)%nat then take 100 filename else filename in
  let filename := strip strip_chars filename in
  match filename with
  | [] => unknown_song
  | _ => filename
  end.

Definition _sanitize_filename (filename : string) : string :=
  string_of_list_ascii (sanitize_chars (list_ascii_of_string filename)).

End YouTubeDownloader.

(** * Properties *)

Import QueueManager MusicPlayer MusicBot.

(** ** The queue store *)
Section QueueFacts.
Implicit Types (qs : gmap Z (list Track)) (chat_id c : Z) (s : Track).

Lemma same_song_refl s : same_song s s.
Proof. by split. Qed.

Lemma getitem_fst chat_id qs : (getitem chat_id qs).1 = contents qs chat_id.
Proof. unfold getitem, contents. by destruct (qs !! chat_id). Qed.

Lemma contents_getitem chat_id qs c :
  contents (getitem chat_id qs).2 c = contents qs c.
Proof.
  unfold getitem, contents. destruct (qs !! chat_id) eqn:E; [done|].
  simpl. destruct (decide (chat_id = c)) as [->|Hne].
  - by rewrite lookup_insert_eq, E.
  - by rewrite lookup_insert_ne.
Qed.

Lemma contents_insert chat_id (q : list Track) qs c :
  contents (<[chat_id := q]> qs) c
  = if decide (chat_id = c) then q else contents qs c.
Proof.
  unfold contents. destruct (decide (chat_id = c)) as [->|Hne].
  - by rewrite lookup_insert_eq.
  - by rewrite lookup_insert_ne.
Qed.

Lemma contents_set_getitem chat_id (q : list Track) qs c :
  contents (<[chat_id := q]> (getitem chat_id qs).2) c
  = if decide (chat_id = c) then q else contents qs c.
Proof.
  rewrite contents_insert. case_decide; [done|]. apply contents_getitem.
Qed.

(** Each operation, read off the contents of the queues. *)
Lemma add_to_queue_fst M chat_id s qs :
  (add_to_queue M chat_id s qs).1
  = if Z.of_nat (length (contents qs chat_id)) >=? M then -1
    else Z.of_nat (length (contents qs chat_id)) + 1.
Proof.
  unfold add_to_queue. rewrite <- getitem_fst.
  destruct (getitem chat_id qs) as [q qs1]. simpl.
  destruct (_ >=? _); simpl; [done|]. rewrite length_app. simpl. lia.
Qed.

Lemma add_to_queue_contents M chat_id s qs c :
  contents (add_to_queue M chat_id s qs).2 c
  = if decide (chat_id = c ∧ Z.of_nat (length (contents qs chat_id)) < M)
    then contents qs chat_id ++ [s] else contents qs c.
Proof.
  unfold add_to_queue. rewrite <- (getitem_fst chat_id).
  pose proof (contents_getitem chat_id qs c) as Hc.
  pose proof (contents_set_getitem chat_id
                ((getitem chat_id qs).1 ++ [s]) qs c) as Hs.
  destruct (getitem chat_id qs) as [q qs1]. simpl in *.
  destruct (Z.geb_spec (Z.of_nat (length q)) M); simpl.
  - clear Hs. rewrite Hc. case_decide as Hd; [destruct Hd; lia|done].
  - rewrite Hs. clear Hs.
    destruct (decide (chat_id = c)); case_decide as Hd; try done.
    + exfalso. apply Hd. split; [done|lia].
    + by destruct Hd.
Qed.

Lemma remove_from_queue_fst chat_id s qs :
  (remove_from_queue chat_id s qs).1
  = bool_decide (is_Some (list_find (same_song s) (contents qs chat_id))).
Proof.
  unfold remove_from_queue. rewrite <- getitem_fst.
  destruct (getitem chat_id qs) as [q qs1]. simpl.
  destruct (list_find _ q) as [[i x]|]; done.
Qed.

Lemma remove_from_queue_contents chat_id s qs c :
  contents (remove_from_queue chat_id s qs).2 c
  = match list_find (same_song s) (contents qs chat_id) with
    | Some (i, _) =>
        if decide (chat_id = c) then delete i (contents qs chat_id)
        else contents qs c
    | None => contents qs c
    end.
Proof.
  unfold remove_from_queue. rewrite <- (getitem_fst chat_id).
  pose proof (contents_getitem chat_id qs c) as Hc.
  pose proof (λ q', contents_set_getitem chat_id q' qs c) as Hs.
  destruct (getitem chat_id qs) as [q qs1]. simpl in *.
  destruct (list_find _ q) as [[i x]|]; simpl; [apply Hs|apply Hc].
Qed.

Lemma get_current_song_fst chat_id qs :
  (get_current_song chat_id qs).1 = head (contents qs chat_id).
Proof.
  unfold get_current_song. rewrite <- getitem_fst.
  destruct (getitem chat_id qs) as [[|x q] qs1]; done.
Qed.

Lemma get_current_song_contents chat_id qs c :
  contents (get_current_song chat_id qs).2 c = contents qs c.
Proof.
  unfold get_current_song.
  pose proof (contents_getitem chat_id qs c) as Hc.
  destruct (getitem chat_id qs) as [[|x q] qs1]; done.
Qed.

Lemma clear_queue_contents chat_id qs c :
  contents (clear_queue chat_id qs).2 c
  = if decide (chat_id = c) then [] else contents qs c.
Proof.
  unfold clear_queue. destruct (qs !! chat_id) eqn:E; simpl.
  - apply contents_insert.
  - case_decide as H; [|done]. subst. unfold contents. by rewrite E.
Qed.
End QueueFacts.

(** ** Moving and shuffling *)
Section ListMoves.
Context {A : Type}.
Implicit Types (l : list A) (i j : nat) (x : A).

Lemma list_insert_at_length idx x l :
  length (list_insert_at idx x l) = S (length l).
Proof.
  unfold list_insert_at. rewrite length_app. simpl.
  rewrite length_take, length_drop. lia.
Qed.

Lemma list_insert_at_lookup j x l :
  (j ≤ length l)%nat → list_insert_at j x l !! j = Some x.
Proof.
  intros Hj. unfold list_insert_at. apply list_lookup_middle.
  rewrite length_take. lia.
Qed.

Lemma delete_list_insert_at j x l :
  (j ≤ length l)%nat → delete j (list_insert_at j x l) = l.
Proof.
  intros Hj. unfold list_insert_at.
  replace j with (length (take j l)) at 1 by (rewrite length_take; lia).
  rewrite delete_middle. apply take_drop.
Qed.

Lemma list_insert_at_delete i x l :
  l !! i = Some x → list_insert_at i x (delete i l) = l.
Proof.
  revert i. induction l as [|y l IH]; intros [|i] H; simplify_eq/=; try done.
  unfold list_insert_at in *. simpl. f_equal. by apply IH.
Qed.

(** Popping at [i] and inserting at [j], then popping at [j] and inserting
    at [i], gives the list back. *)
Lemma list_move_round_trip i j x l :
  l !! i = Some x → (j < length l)%nat →
  let moved := list_insert_at j x (delete i l) in
  length moved = length l ∧
  moved !! j = Some x ∧
  list_insert_at i x (delete j moved) = l.
Proof.
  intros Hi Hj moved.
  assert (Hlen : length (delete i l) = (length l - 1)%nat)
    by (apply length_delete; eauto).
  assert (Hi' : (i < length l)%nat) by (eapply lookup_lt_Some; eauto).
  split_and!.
  - unfold moved. rewrite list_insert_at_length. lia.
  - apply list_insert_at_lookup. lia.
  - unfold moved. rewrite delete_list_insert_at by lia.
    by apply list_insert_at_delete.
Qed.
End ListMoves.

Section MoveShuffleFacts.
Implicit Types (qs : gmap Z (list Track)) (chat_id c : Z) (s : Track).

Lemma move_song_valid chat_id a b qs :
  valid_position qs chat_id a → valid_position qs chat_id b →
  ∃ song,
    contents qs chat_id !! Z.to_nat (a - 1) = Some song ∧
    (move_song chat_id a b qs).1 = true ∧
    ∀ c, contents (move_song chat_id a b qs).2 c
         = if decide (chat_id = c)
           then list_insert_at (Z.to_nat (b - 1)) song
                  (delete (Z.to_nat (a - 1)) (contents qs chat_id))
           else contents qs c.
Proof.
  unfold valid_position, move_song. rewrite <- (getitem_fst chat_id).
  pose proof (λ q' c, contents_set_getitem chat_id q' qs c) as Hs.
  destruct (getitem chat_id qs) as [q qs1]. simpl in *. intros Ha Hb.
  destruct (lookup_lt_is_Some_2 q (Z.to_nat (a - 1))) as [song Hsong];
    [lia|].
  exists song. split; [done|].
  replace ((0 <=? a - 1) && (a - 1 <? Z.of_nat (length q))
           && (0 <=? b - 1) && (b - 1 <? Z.of_nat (length q))) with true
    by (symmetry; repeat (apply andb_true_intro; split); lia).
  simpl. rewrite Hsong. simpl. split; [done|]. intros c. apply Hs.
Qed.

Lemma move_song_invalid chat_id a b qs :
  ¬ (valid_position qs chat_id a ∧ valid_position qs chat_id b) →
  (move_song chat_id a b qs).1 = false ∧
  ∀ c, contents (move_song chat_id a b qs).2 c = contents qs c.
Proof.
  unfold valid_position, move_song. rewrite <- (getitem_fst chat_id).
  pose proof (contents_getitem chat_id qs) as Hc.
  destruct (getitem chat_id qs) as [q qs1]. simpl in *. intros Hn.
  replace ((0 <=? a - 1) && (a - 1 <? Z.of_nat (length q))
           && (0 <=? b - 1) && (b - 1 <? Z.of_nat (length q))) with false;
    [done|].
  symmetry. apply not_true_is_false. intros H. apply Hn.
  repeat (apply andb_prop in H as [H ?]). lia.
Qed.

Lemma shuffle_queue_small f chat_id preserve qs :
  (length (contents qs chat_id) ≤ 1)%nat →
  (shuffle_queue f chat_id preserve qs).1 = false ∧
  ∀ c, contents (shuffle_queue f chat_id preserve qs).2 c = contents qs c.
Proof.
  unfold shuffle_queue. rewrite <- (getitem_fst chat_id).
  pose proof (contents_getitem chat_id qs) as Hc.
  destruct (getitem chat_id qs) as [q qs1]. simpl in *. intros Hle.
  apply Nat.leb_le in Hle. by rewrite Hle.
Qed.

Lemma shuffle_queue_large f chat_id preserve qs :
  (1 < length (contents qs chat_id))%nat →
  (shuffle_queue f chat_id preserve qs).1 = true ∧
  ∀ c, contents (shuffle_queue f chat_id preserve qs).2 c
       = if decide (chat_id = c)
         then match preserve, contents qs chat_id with
              | true, current_song :: remaining_songs =>
                  current_song :: f remaining_songs
              | _, queue => f queue
              end
         else contents qs c.
Proof.
  unfold shuffle_queue. rewrite <- (getitem_fst chat_id).
  pose proof (λ q' c, contents_set_getitem chat_id q' qs c) as Hs.
  destruct (getitem chat_id qs) as [q qs1]. simpl in *. intros Hlt.
  apply Nat.leb_gt in Hlt. rewrite Hlt.
  destruct preserve, q as [|x q]; simpl; (split; [done|]); intros c;
    apply Hs.
Qed.
End MoveShuffleFacts.

(** ** Claims about the queue store *)
Section QueueClaims.
Implicit Types (qs : gmap Z (list Track)) (chat_id c : Z) (s : Track).

(** C9. A successful [add_to_queue] returns the 1-based position of the new
    entry, which is the length of the queue right after the append; the
    queue grows by exactly one entry at its end, every earlier entry keeps
    its index, and other chats are untouched. The rejection of a full queue
    is the return value [-1], which leaves every queue as it was. *)
Theorem add_to_queue_position (MAX_QUEUE_SIZE : Z) chat_id s qs :
  let r := add_to_queue MAX_QUEUE_SIZE chat_id s qs in
  let before := contents qs chat_id in
  let after := contents r.2 chat_id in
  (r.1 = -1 ↔ MAX_QUEUE_SIZE <= Z.of_nat (length before)) ∧
  (r.1 = -1 → ∀ c, contents r.2 c = contents qs c) ∧
  (r.1 ≠ -1 →
     r.1 = Z.of_nat (length after) ∧
     1 <= r.1 ∧
     length after = S (length before) ∧
     after = before ++ [s] ∧
     (∀ i x, before !! i = Some x → after !! i = Some x) ∧
     (∀ c, c ≠ chat_id → contents r.2 c = contents qs c)).
Proof.
  intros r before after. unfold after, r.
  pose proof (add_to_queue_fst MAX_QUEUE_SIZE chat_id s qs) as Hfst.
  pose proof (add_to_queue_contents MAX_QUEUE_SIZE chat_id s qs) as Hc.
  fold before in Hfst, Hc.
  destruct (Z.geb_spec (Z.of_nat (length before)) MAX_QUEUE_SIZE) as [Hfull|Hroom].
  - rewrite Hfst. split_and!; [done| |done].
    intros _ c. rewrite Hc. destruct (decide (_ ∧ _)) as [[_ Hd]|_]; [lia|done].
  - rewrite Hfst. split_and!; [lia|lia|]. intros _.
    assert (Hafter : contents (add_to_queue MAX_QUEUE_SIZE chat_id s qs).2 chat_id
                     = before ++ [s]).
    { rewrite Hc. destruct (decide (_ ∧ _)) as [_|Hd]; [done|]. exfalso. apply Hd. by split. }
    rewrite Hafter, length_app. simpl. split_and!; try lia; try done.
    + intros i x Hi. by apply lookup_app_l_Some.
    + intros c Hne. rewrite Hc. destruct (decide (_ ∧ _)) as [[Hd _]|_]; [congruence|done].
Qed.

Lemma add_to_queue_position_witness :
  let r := add_to_queue 20 7 songB {[ 7 := [songA] ]} in
  r.1 = 2 ∧ contents r.2 7 = [songA; songB].
Proof.
  destruct (add_to_queue_position 20 7 songB {[ 7 := [songA] ]})
    as (_ & _ & H).
  destruct H as (H1 & _ & _ & H2 & _); [by vm_compute|].
  split; [rewrite H1|rewrite H2]; reflexivity.
Defined.

(** Every operation of the store keeps queues within the bound. *)
Lemma apply_op_bound (MAX_QUEUE_SIZE : Z) op qs :
  0 <= MAX_QUEUE_SIZE → op_ok op →
  (∀ c, Z.of_nat (length (contents qs c)) <= MAX_QUEUE_SIZE) →
  ∀ c, Z.of_nat (length (contents (apply_op MAX_QUEUE_SIZE op qs) c))
       <= MAX_QUEUE_SIZE.
Proof.
  intros HM Hok Hinv c. destruct op; simpl in *.
  - rewrite add_to_queue_contents.
    destruct (decide (_ ∧ _)) as [[-> Hd]|_]; [|done].
    rewrite length_app. simpl. lia.
  - rewrite remove_from_queue_contents.
    destruct (list_find _ _) as [[i x]|] eqn:Hfind; [|done].
    case_decide; [|done]. specialize (Hinv chat_id).
    apply list_find_Some in Hfind as (Hi & _).
    rewrite length_delete by eauto. lia.
  - by rewrite get_current_song_contents.
  - unfold get_next_song. pose proof (contents_getitem chat_id qs c) as Hc.
    destruct (getitem chat_id qs) as [q qs1]. simpl in *.
    destruct (1 <? length q)%nat; simpl; by rewrite Hc.
  - unfold get_queue. by rewrite contents_getitem.
  - rewrite clear_queue_contents. case_decide; [simpl; lia|done].
  - unfold get_queue_size. pose proof (contents_getitem chat_id qs c) as Hc.
    destruct (getitem chat_id qs) as [q qs1]. simpl in *. by rewrite Hc.
  - unfold get_queue_status. pose proof (contents_getitem chat_id qs c) as Hc.
    destruct (getitem chat_id qs) as [q qs1]. simpl in *. by rewrite Hc.
  - destruct (decide (valid_position qs chat_id from_position
                      ∧ valid_position qs chat_id to_position)) as [[Ha Hb]|Hn].
    + destruct (move_song_valid chat_id from_position to_position qs Ha Hb)
        as (song & Hsong & _ & Hc).
      rewrite Hc. case_decide; [|done].
      rewrite list_insert_at_length, length_delete by eauto.
      specialize (Hinv chat_id).
      apply lookup_lt_Some in Hsong. lia.
    + destruct (move_song_invalid chat_id from_position to_position qs Hn)
        as [_ Hc]. by rewrite Hc.
  - destruct (decide (length (contents qs chat_id) ≤ 1)%nat) as [Hle|Hgt].
    + destruct (shuffle_queue_small random_shuffle chat_id preserve_current
                  qs Hle) as [_ Hc]. by rewrite Hc.
    + destruct (shuffle_queue_large random_shuffle chat_id preserve_current
                  qs) as [_ Hc]; [lia|].
      rewrite Hc. case_decide; [|done]. specialize (Hinv chat_id).
      destruct preserve_current, (contents qs chat_id) as [|x q];
        simpl in *; rewrite ?Hok; simpl; lia.
Qed.

Lemma run_ops_bound (MAX_QUEUE_SIZE : Z) ops :
  0 <= MAX_QUEUE_SIZE → Forall op_ok ops →
  ∀ qs, (∀ c, Z.of_nat (length (contents qs c)) <= MAX_QUEUE_SIZE) →
  ∀ c, Z.of_nat (length (contents (run_ops MAX_QUEUE_SIZE ops qs) c))
       <= MAX_QUEUE_SIZE.
Proof.
  intros HM Hok. induction Hok as [|op ops Hop Hops IH]; intros qs Hinv.
  - done.
  - simpl. apply IH. by apply apply_op_bound.
Qed.

(** C4. With a bound [0 <= MAX_QUEUE_SIZE], in every state the store can
    be brought into from the empty one: a queue never holds more than
    [MAX_QUEUE_SIZE] songs; [add_to_queue] is rejected (returns [-1])
    exactly when the queue holds [MAX_QUEUE_SIZE] songs, and then leaves
    every queue unchanged; the enqueue that fills the queue to exactly
    [MAX_QUEUE_SIZE] succeeds; and the length after an enqueue is again
    within the bound. *)
Theorem queue_full_exactly_at_capacity (MAX_QUEUE_SIZE : Z)
  (ops : list QueueOp) chat_id s :
  0 <= MAX_QUEUE_SIZE → Forall op_ok ops →
  let qs := run_ops MAX_QUEUE_SIZE ops ∅ in
  let r := add_to_queue MAX_QUEUE_SIZE chat_id s qs in
  let n := Z.of_nat (length (contents qs chat_id)) in
  n <= MAX_QUEUE_SIZE ∧
  (r.1 = -1 ↔ n = MAX_QUEUE_SIZE) ∧
  (r.1 = -1 → ∀ c, contents r.2 c = contents qs c) ∧
  (n + 1 = MAX_QUEUE_SIZE →
     r.1 = MAX_QUEUE_SIZE ∧
     Z.of_nat (length (contents r.2 chat_id)) = MAX_QUEUE_SIZE) ∧
  ∀ c, Z.of_nat (length (contents r.2 c)) <= MAX_QUEUE_SIZE.
Proof.
  intros HM Hok qs r n.
  assert (Hinv : ∀ c, Z.of_nat (length (contents qs c)) <= MAX_QUEUE_SIZE).
  { apply run_ops_bound; [done|done|]. intros c. unfold contents.
    rewrite lookup_empty. simpl. lia. }
  pose proof (Hinv chat_id) as Hn. fold n in Hn.
  pose proof (add_to_queue_fst MAX_QUEUE_SIZE chat_id s qs) as Hfst.
  pose proof (add_to_queue_contents MAX_QUEUE_SIZE chat_id s qs) as Hc.
  fold r in Hfst, Hc. fold n in Hfst, Hc.
  destruct (Z.geb_spec n MAX_QUEUE_SIZE) as [Hfull|Hroom].
  - split_and!.
    + done.
    + rewrite Hfst. split; [lia|done].
    + intros _ c. rewrite Hc.
      destruct (decide (_ ∧ _)) as [[_ Hlt]|_]; [lia|done].
    + intros Hlast. lia.
    + intros c. rewrite Hc.
      destruct (decide (_ ∧ _)) as [[_ Hlt]|_]; [lia|apply Hinv].
  - assert (Hafter : contents r.2 chat_id = contents qs chat_id ++ [s]).
    { rewrite Hc. destruct (decide (_ ∧ _)) as [_|Hd]; [done|].
      exfalso. apply Hd. by split. }
    split_and!.
    + done.
    + rewrite Hfst. split; lia.
    + rewrite Hfst. lia.
    + intros Hlast. rewrite Hfst, Hafter, length_app. simpl.
      unfold n in Hlast. lia.
    + intros c. rewrite Hc.
      destruct (decide (_ ∧ _)) as [[_ Hlt]|_]; [|apply Hinv].
      rewrite length_app. simpl. unfold n in Hroom. lia.
Qed.

Lemma queue_full_exactly_at_capacity_witness :
  let qs := run_ops 2 [OpAdd 7 songA; OpShuffle 7 true reverse; OpAdd 7 songB] ∅ in
  let r := add_to_queue 2 7 songC qs in
  contents qs 7 = [songA; songB] ∧
  Z.of_nat (length (contents qs 7)) <= 2 ∧
  r.1 = -1 ∧
  contents r.2 7 = [songA; songB].
Proof.
  destruct (queue_full_exactly_at_capacity 2
              [OpAdd 7 songA; OpShuffle 7 true reverse; OpAdd 7 songB]
              7 songC) as (H1 & H2 & H3 & _).
  - lia.
  - repeat constructor. intros l. simpl. apply reverse_Permutation.
  - assert (Hfull : (add_to_queue 2 7 songC
                       (run_ops 2 [OpAdd 7 songA; OpShuffle 7 true reverse;
                                   OpAdd 7 songB] ∅)).1 = -1)
      by (apply H2; reflexivity).
    split_and!; [reflexivity|exact H1|exact Hfull|].
    exact (eq_trans (H3 Hfull 7) eq_refl).
Defined.
End QueueClaims.

Section QueueOrderClaims.
Implicit Types (qs : gmap Z (list Track)) (chat_id c : Z) (s : Track).

(** C7. For every outcome of [random.shuffle] (any reordering),
    [shuffle_queue] with [preserve_current=True] keeps the song at index 0
    and leaves the rest a permutation of what it was, other chats
    untouched; on a queue of at most one song it returns [False] and
    changes no queue (whatever [preserve_current] is). *)
Theorem shuffle_queue_preserves_current
  (random_shuffle : list Track → list Track) chat_id qs :
  (∀ l, random_shuffle l ≡ₚ l) →
  let r := shuffle_queue random_shuffle chat_id true qs in
  let before := contents qs chat_id in
  let after := contents r.2 chat_id in
  ((length before ≤ 1)%nat →
     ∀ preserve_current,
       (shuffle_queue random_shuffle chat_id preserve_current qs).1 = false ∧
       ∀ c, contents
              (shuffle_queue random_shuffle chat_id preserve_current qs).2 c
            = contents qs c) ∧
  ((1 < length before)%nat → r.1 = true) ∧
  head after = head before ∧
  tail after ≡ₚ tail before ∧
  after ≡ₚ before ∧
  (∀ c, c ≠ chat_id → contents r.2 c = contents qs c).
Proof.
  intros Hperm r before after. unfold after, r.
  destruct (decide (length before ≤ 1)%nat) as [Hle|Hgt].
  - destruct (shuffle_queue_small random_shuffle chat_id true qs Hle)
      as [Hr Hc].
    split_and!; try done; try (by rewrite Hc); try lia.
    intros _ preserve_current.
    by apply shuffle_queue_small.
  - destruct (shuffle_queue_large random_shuffle chat_id true qs)
      as [Hr Hc]; [fold before; lia|].
    fold before in Hc.
    assert (Hafter : contents (shuffle_queue random_shuffle chat_id true qs).2
                       chat_id
                     = match before with
                       | x :: rest => x :: random_shuffle rest
                       | [] => random_shuffle []
                       end).
    { rewrite Hc. by case_decide. }
    split_and!.
    + lia.
    + done.
    + rewrite Hafter. destruct before; [simpl in *; lia|done].
    + rewrite Hafter. destruct before; [simpl in *; lia|]. simpl. apply Hperm.
    + rewrite Hafter. destruct before; [simpl in *; lia|].
      by rewrite Hperm.
    + intros c Hne. rewrite Hc. by case_decide.
Qed.

Lemma shuffle_queue_preserves_current_witness :
  let r := shuffle_queue reverse 7 true {[ 7 := [songA; songB; songC] ]} in
  r.1 = true ∧
  head (contents r.2 7) = Some songA ∧
  tail (contents r.2 7) ≡ₚ [songB; songC].
Proof.
  destruct (shuffle_queue_preserves_current reverse 7
              {[ 7 := [songA; songB; songC] ]})
    as (_ & Hr & Hhead & Htail & _).
  - intros l. apply reverse_Permutation.
  - split_and!; [apply Hr; vm_compute; lia|exact Hhead|exact Htail].
Defined.

(** C8. When the 1-based positions [a] and [b] both lie in [[1, size]] and
    differ, [move_song a b] followed by [move_song b a] both succeed and
    leave every queue with its original order. *)
Theorem move_song_round_trip chat_id (a b : Z) qs :
  valid_position qs chat_id a → valid_position qs chat_id b → a ≠ b →
  let r1 := move_song chat_id a b qs in
  let r2 := move_song chat_id b a r1.2 in
  r1.1 = true ∧ r2.1 = true ∧ ∀ c, contents r2.2 c = contents qs c.
Proof.
  intros Ha Hb _ r1 r2. unfold r2, r1.
  destruct (move_song_valid chat_id a b qs Ha Hb) as (song & Hsong & Hr1 & Hc1).
  unfold valid_position in Ha, Hb.
  destruct (list_move_round_trip (Z.to_nat (a - 1)) (Z.to_nat (b - 1)) song
              (contents qs chat_id) Hsong) as (Hlen & Hat & Hback); [lia|].
  set (qs1 := (move_song chat_id a b qs).2) in *.
  assert (Hq1 : contents qs1 chat_id
                = list_insert_at (Z.to_nat (b - 1)) song
                    (delete (Z.to_nat (a - 1)) (contents qs chat_id))).
  { rewrite Hc1. by case_decide. }
  assert (Hb1 : valid_position qs1 chat_id b)
    by (unfold valid_position; rewrite Hq1, Hlen; lia).
  assert (Ha1 : valid_position qs1 chat_id a)
    by (unfold valid_position; rewrite Hq1, Hlen; lia).
  destruct (move_song_valid chat_id b a qs1 Hb1 Ha1)
    as (song' & Hsong' & Hr2 & Hc2).
  rewrite Hq1, Hat in Hsong'. injection Hsong' as <-.
  split_and!; [done|done|]. intros c. rewrite Hc2, Hq1, Hback, Hc1.
  by case_decide; subst.
Qed.

Lemma move_song_round_trip_witness :
  let qs := {[ 7 := [songA; songB; songC] ]} in
  contents (move_song 7 1 3 qs).2 7 = [songB; songC; songA] ∧
  contents (move_song 7 3 1 (move_song 7 1 3 qs).2).2 7
  = [songA; songB; songC].
Proof.
  split; [reflexivity|].
  refine (proj2 (proj2 (move_song_round_trip 7 1 3
                          {[ 7 := [songA; songB; songC] ]} _ _ _)) 7);
    vm_compute; intuition congruence.
Defined.

(** C6, as the code has it. After [remove_from_queue], [get_current_song]
    returns a song with the removed identity (title, url) exactly when the
    queue began with two songs of that identity. So it never does when
    the identity occurred at most once in the queue, and never when the
    matched song was not at index 0: the head is then untouched. *)
Theorem remove_then_current chat_id s qs :
  let r := remove_from_queue chat_id s qs in
  let before := contents qs chat_id in
  let current := (get_current_song chat_id r.2).1 in
  ((∃ t, current = Some t ∧ same_song s t) ↔
   (∃ a b rest, before = a :: b :: rest ∧ same_song s a ∧ same_song s b)) ∧
  ((length (filter (same_song s) before) ≤ 1)%nat →
   ∀ t, current = Some t → ¬ same_song s t) ∧
  (∀ i x, list_find (same_song s) before = Some (i, x) → (0 < i)%nat →
     r.1 = true ∧ current = head before ∧
     ∀ t, current = Some t → ¬ same_song s t).
Proof.
  intros r before current. unfold current, r.
  rewrite get_current_song_fst, remove_from_queue_contents,
    remove_from_queue_fst.
  fold before. destruct before as [|a rest]; simpl.
  { split_and!; [|done|done]. split; [by intros (t & ? & _)|].
    by intros (a & b & rest & ? & _). }
  destruct (decide (same_song s a)) as [Ha|Hna]; simpl.
  - rewrite decide_True by done. rewrite filter_cons_True by done.
    split_and!.
    + split.
      * intros (t & Ht & Hst). destruct rest as [|b rest]; [done|].
        simpl in Ht. injection Ht as ->. by exists a, t, rest.
      * intros (a' & b & rest' & Heq & _ & Hb). injection Heq as -> ->.
        by exists b.
    + simpl. intros Hlen t Ht Hst. destruct rest as [|b rest]; [done|].
      simpl in Ht. injection Ht as ->.
      rewrite filter_cons_True in Hlen by done. simpl in Hlen. lia.
    + intros i x Hix Hi. injection Hix as <- <-. lia.
  - assert (Hhead : head (match prod_map S id
                                  <$> list_find (same_song s) rest with
                          | Some (i, _) =>
                              if decide (chat_id = chat_id)
                              then delete i (a :: rest) else a :: rest
                          | None => a :: rest
                          end) = Some a).
    { destruct (list_find _ rest) as [[i x]|]; simpl; [|done].
      by rewrite decide_True. }
    rewrite Hhead. split_and!.
    + split.
      * intros (t & Ht & Hst). by injection Ht as ->.
      * intros (a' & b & rest' & Heq & Ha' & _). by injection Heq as -> ->.
    + intros _ t Ht Hst. by injection Ht as ->.
    + intros i x Hix Hi. split_and!; [|done|].
      * by destruct (list_find _ rest).
      * intros t Ht Hst. by injection Ht as ->.
Qed.

Lemma remove_then_current_witness :
  let qs := {[ 7 := [songA; songB; songA] ]} in
  (remove_from_queue 7 songB qs).1 = true ∧
  (get_current_song 7 (remove_from_queue 7 songB qs).2).1 = Some songA ∧
  ¬ same_song songB songA.
Proof.
  destruct (remove_then_current 7 songB {[ 7 := [songA; songB; songA] ]})
    as (_ & _ & H).
  destruct (H 1%nat songB) as (Hr & Hcur & Hne); [by vm_compute|lia|].
  split_and!; [exact Hr|exact Hcur|]. apply Hne. exact Hcur.
Defined.

(** C6 as stated fails on a queue that holds the same song twice in a row
    at its head: the first copy is removed and the second is current. *)
Lemma remove_then_current_duplicate :
  let qs := {[ 7 := [songA; songA; songB] ]} in
  let r := remove_from_queue 7 songA qs in
  r.1 = true ∧
  contents r.2 7 = [songA; songB] ∧
  (get_current_song 7 r.2).1 = Some songA ∧
  same_song songA songA.
Proof. by vm_compute. Qed.
End QueueOrderClaims.

(** ** The playback simulation *)
Section PlayerFacts.
Implicit Types (p : Player) (chat_id c : Z).

Lemma in_active_stop_audio chat_id p c :
  in_active (stop_audio chat_id p).2 c
  = in_active p c && negb (bool_decide (c = chat_id)).
Proof.
  destruct (decide (c = chat_id)) as [->|Hne].
  - rewrite bool_decide_eq_true_2, andb_false_r by done.
    unfold stop_audio. destruct (in_active p chat_id) eqn:E; [|done].
    unfold in_active. simpl. rewrite lookup_delete_eq.
    by apply bool_decide_eq_false_2, is_Some_None.
  - rewrite bool_decide_eq_false_2, andb_true_r by done.
    unfold stop_audio. destruct (in_active p chat_id); [|done].
    unfold in_active. simpl. by rewrite lookup_delete_ne.
Qed.

Lemma paused_flag_stop_audio chat_id p c :
  c ≠ chat_id → paused_flag (stop_audio chat_id p).2 c = paused_flag p c.
Proof.
  intros Hne. unfold stop_audio. destruct (in_active p chat_id); [|done].
  unfold paused_flag. simpl. by rewrite lookup_delete_ne.
Qed.

Lemma stop_audio_idle chat_id p :
  (stop_audio chat_id p).1 = true ∧
  session_state (stop_audio chat_id p).2 chat_id = Idle.
Proof.
  split; [unfold stop_audio; by destruct (in_active p chat_id)|].
  unfold session_state, is_playing, is_paused.
  rewrite in_active_stop_audio, bool_decide_eq_true_2 by done.
  by rewrite andb_false_r.
Qed.

Lemma play_audio_fst (path_exists : string → bool) chat_id path p :
  (play_audio path_exists chat_id path p).1 = path_exists path.
Proof. unfold play_audio. by destruct (path_exists path). Qed.

Lemma play_audio_failed (path_exists : string → bool) chat_id path p :
  path_exists path = false →
  (play_audio path_exists chat_id path p).2 = p.
Proof. intros H. unfold play_audio. by rewrite H. Qed.

Lemma play_audio_started (path_exists : string → bool) chat_id path p :
  path_exists path = true →
  session_state (play_audio path_exists chat_id path p).2 chat_id = Playing ∧
  paused_flag (play_audio path_exists chat_id path p).2 chat_id = false ∧
  ∀ c, in_active (play_audio path_exists chat_id path p).2 c
       = bool_decide (c = chat_id) || in_active p c.
Proof.
  intros H. unfold play_audio. rewrite H. simpl.
  set (p1 := if in_active p chat_id then (stop_audio chat_id p).2 else p).
  assert (Hp1 : ∀ c, c ≠ chat_id → in_active p1 c = in_active p c).
  { intros c Hne. unfold p1. destruct (in_active p chat_id); [|done].
    by rewrite in_active_stop_audio, bool_decide_eq_false_2, andb_true_r. }
  assert (Hact : ∀ c,
    in_active
      {| active_streams := <[chat_id:=true]> (active_streams p1);
         paused_streams := <[chat_id:=false]> (paused_streams p1);
         current_processes := current_processes p1;
         playback_threads := {[chat_id]} ∪ playback_threads p1 |} c
    = bool_decide (c = chat_id) || in_active p c).
  { intros c. destruct (decide (c = chat_id)) as [->|Hne].
    - rewrite (bool_decide_eq_true_2 (chat_id = chat_id)) by done.
      unfold in_active at 1. simpl. rewrite lookup_insert_eq.
      by apply bool_decide_eq_true_2.
    - rewrite (bool_decide_eq_false_2 (c = chat_id)) by done. simpl.
      rewrite <- Hp1 by done.
      unfold in_active. simpl. by rewrite lookup_insert_ne. }
  split_and!; [|unfold paused_flag; simpl; by rewrite lookup_insert_eq|done].
  unfold session_state, is_playing. rewrite Hact.
  rewrite bool_decide_eq_true_2 by done.
  unfold paused_flag. simpl. by rewrite lookup_insert_eq.
Qed.

Lemma in_active_play_audio (path_exists : string → bool) chat_id path p c :
  in_active (play_audio path_exists chat_id path p).2 c = true →
  c = chat_id ∨ in_active p c = true.
Proof.
  destruct (path_exists path) eqn:E.
  - destruct (play_audio_started path_exists chat_id path p E)
      as (_ & _ & ->).
    case_bool_decide; [by left|by right].
  - rewrite play_audio_failed by done. by right.
Qed.

Lemma in_active_pause_audio chat_id p c :
  in_active (pause_audio chat_id p).2 c = in_active p c.
Proof. unfold pause_audio. by destruct (_ || _). Qed.

Lemma in_active_resume_audio chat_id p c :
  in_active (resume_audio chat_id p).2 c = in_active p c.
Proof. unfold resume_audio. by destruct (_ || _). Qed.

Lemma in_active_simulate_playback_finish chat_id p c :
  in_active (simulate_playback_finish chat_id p) c = true →
  in_active p c = true.
Proof.
  unfold simulate_playback_finish. destruct (_ && _); [|done].
  unfold in_active. simpl. rewrite !bool_decide_eq_true.
  destruct (decide (c = chat_id)) as [->|Hne].
  - rewrite lookup_delete_eq. by intros [? ?].
  - by rewrite lookup_delete_ne.
Qed.

Lemma session_state_paused p chat_id :
  session_state p chat_id = Paused ↔
  in_active p chat_id = true ∧ paused_flag p chat_id = true.
Proof.
  unfold session_state, is_playing, is_paused.
  destruct (in_active p chat_id), (paused_flag p chat_id); simpl;
    intuition congruence.
Qed.

Lemma session_state_idle p chat_id :
  session_state p chat_id = Idle ↔ in_active p chat_id = false.
Proof.
  unfold session_state, is_playing, is_paused.
  destruct (in_active p chat_id), (paused_flag p chat_id); simpl;
    intuition congruence.
Qed.

(** C10. In every player state, hence in every reachable one, and for
    every chat: [is_playing] and [is_paused] are never both true; a chat is
    playing exactly when it is in [active_streams] with its paused flag
    false, paused exactly when it is in [active_streams] with its paused
    flag true, and a chat that is not in [active_streams] is neither. *)
Theorem playing_paused_exclusive p chat_id :
  ¬ (is_playing p chat_id = true ∧ is_paused p chat_id = true) ∧
  (is_playing p chat_id = true ↔
     is_Some (active_streams p !! chat_id) ∧ paused_flag p chat_id = false) ∧
  (is_paused p chat_id = true ↔
     is_Some (active_streams p !! chat_id) ∧ paused_flag p chat_id = true) ∧
  (active_streams p !! chat_id = None →
     is_playing p chat_id = false ∧ is_paused p chat_id = false).
Proof.
  unfold is_playing, is_paused, in_active.
  destruct (paused_flag p chat_id); split_and!.
  - rewrite andb_false_r. by intros [? _].
  - rewrite andb_false_r. intuition congruence.
  - rewrite andb_true_r, bool_decide_eq_true. intuition.
  - intros ->. by rewrite bool_decide_eq_false_2 by apply is_Some_None.
  - rewrite andb_false_r. by intros [_ ?].
  - rewrite andb_true_r, bool_decide_eq_true. intuition.
  - rewrite andb_false_r. intuition congruence.
  - intros ->. by rewrite bool_decide_eq_false_2 by apply is_Some_None.
Qed.

Lemma playing_paused_exclusive_witness :
  let p := (pause_audio 7 (play_audio (λ _, true) 7 "./downloads/A.mp3"
                             MusicPlayer.init).2).2 in
  is_paused p 7 = true ∧ is_playing p 7 = false ∧
  is_playing p 8 = false ∧ is_paused p 8 = false.
Proof.
  intros p.
  destruct (playing_paused_exclusive p 7) as (Hex & _ & Hpa & _).
  destruct (playing_paused_exclusive p 8) as (_ & _ & _ & Hno).
  assert (H7 : is_paused p 7 = true)
    by (apply Hpa; vm_compute; split; [by eexists|done]).
  destruct Hno as [H8 H8']; [by vm_compute|].
  split_and!; [exact H7| |exact H8|exact H8'].
  destruct (is_playing p 7) eqn:E; [|done]. exfalso. by apply Hex.
Defined.
End PlayerFacts.

(** ** The command handlers *)
Section HandlerFacts.
Implicit Types (b : Bot) (chat_id c : Z) (path_exists : string → bool).

Lemma value_bind {A B} (m : Handler A) (k : A → Handler B) b :
  value (bind m k) b = value (k (value m b)) (exec m b).
Proof.
  unfold value, exec, bind. destruct (m b) as [[a b1] t1]. simpl.
  by destruct (k a b1) as [[r b2] t2].
Qed.

Lemma exec_bind {A B} (m : Handler A) (k : A → Handler B) b :
  exec (bind m k) b = exec (k (value m b)) (exec m b).
Proof.
  unfold value, exec, bind. destruct (m b) as [[a b1] t1]. simpl.
  by destruct (k a b1) as [[r b2] t2].
Qed.

Lemma trace_bind {A B} (m : Handler A) (k : A → Handler B) b :
  trace (bind m k) b = trace m b ++ trace (k (value m b)) (exec m b).
Proof.
  unfold value, exec, trace, bind. destruct (m b) as [[a b1] t1]. simpl.
  by destruct (k a b1) as [[r b2] t2].
Qed.

Lemma exec_ret {A} (a : A) b : exec (ret a) b = b.
Proof. done. Qed.

Lemma trace_ret {A} (a : A) b : trace (ret a) b = [].
Proof. done. Qed.

Lemma exec_emit e b : exec (emit e) b = b.
Proof. done. Qed.

Lemma trace_emit e b : trace (emit e) b = [e].
Proof. done. Qed.

Lemma value_on_queue {A} (f : gmap Z (list Track) → A * gmap Z (list Track)) b :
  value (on_queue f) b = (f (queue_manager b)).1.
Proof. unfold value, on_queue. by destruct (f (queue_manager b)). Qed.

Lemma exec_on_queue {A} (f : gmap Z (list Track) → A * gmap Z (list Track)) b :
  exec (on_queue f) b
  = {| queue_manager := (f (queue_manager b)).2;
       music_player := music_player b |}.
Proof. unfold exec, on_queue. by destruct (f (queue_manager b)). Qed.

Lemma trace_on_queue {A} (f : gmap Z (list Track) → A * gmap Z (list Track)) b :
  trace (on_queue f) b = [].
Proof. unfold trace, on_queue. by destruct (f (queue_manager b)). Qed.

Lemma value_on_player (f : Player → bool * Player) ev b :
  value (on_player f ev) b = (f (music_player b)).1.
Proof. unfold value, on_player. by destruct (f (music_player b)). Qed.

Lemma exec_on_player (f : Player → bool * Player) ev b :
  exec (on_player f ev) b
  = {| queue_manager := queue_manager b;
       music_player := (f (music_player b)).2 |}.
Proof. unfold exec, on_player. by destruct (f (music_player b)). Qed.

Lemma trace_on_player (f : Player → bool * Player) ev b :
  trace (on_player f ev) b = [ev (f (music_player b)).1].
Proof. unfold trace, on_player. by destruct (f (music_player b)). Qed.

End HandlerFacts.

Create Rewrite HintDb handler.
#[local] Hint Rewrite @value_bind @exec_bind @trace_bind @exec_ret @trace_ret
  exec_emit trace_emit @value_on_queue @exec_on_queue @trace_on_queue
  value_on_player exec_on_player trace_on_player : handler.

Ltac step_handler := autorewrite with handler; cbn [queue_manager music_player].

Section PlayFacts.
Implicit Types (b : Bot) (chat_id c : Z) (path_exists : string → bool).

Lemma bot_equiv_refl b : bot_equiv b b.
Proof. by split. Qed.

Lemma list_find_head (s : Track) (rest : list Track) :
  list_find (same_song s) (s :: rest) = Some (0%nat, s).
Proof. simpl. by rewrite decide_True by apply same_song_refl. Qed.

(** [/play] with arguments and a search result, case by case. *)
Lemma play_command_some M path_exists chat_id a args r b :
  let q := contents (queue_manager b) chat_id in
  let cmd := play_command M path_exists chat_id (a :: args) (Some r) in
  let searching := Reply (MsgSearching (join_args (a :: args))) in
  (M <= Z.of_nat (length q) →
     bot_equiv (exec cmd b) b ∧
     trace cmd b = [searching; Edit (MsgAddedToQueue (-1) (title r))]) ∧
  (Z.of_nat (length q) < M → q ≠ [] →
     music_player (exec cmd b) = music_player b ∧
     (∀ c, contents (queue_manager (exec cmd b)) c
           = if decide (chat_id = c) then q ++ [r]
             else contents (queue_manager b) c) ∧
     trace cmd b
     = [searching;
        Edit (MsgAddedToQueue (Z.of_nat (length q) + 1) (title r))]) ∧
  (Z.of_nat (length q) < M → q = [] → path_exists (file_path r) = true →
     music_player (exec cmd b)
     = (play_audio path_exists chat_id (file_path r) (music_player b)).2 ∧
     (∀ c, contents (queue_manager (exec cmd b)) c
           = if decide (chat_id = c) then [r]
             else contents (queue_manager b) c) ∧
     trace cmd b = [searching; Edit (MsgNowPlaying (title r));
                    BackendStart chat_id (file_path r) true]) ∧
  (Z.of_nat (length q) < M → q = [] → path_exists (file_path r) = false →
     bot_equiv (exec cmd b) b ∧
     trace cmd b = [searching; Edit (MsgNowPlaying (title r));
                    BackendStart chat_id (file_path r) false;
                    Reply MsgFailedToJoin]).
Proof.
  intros q cmd searching. unfold cmd, play_command. step_handler.
  pose proof (add_to_queue_fst M chat_id r (queue_manager b)) as Hfst.
  pose proof (add_to_queue_contents M chat_id r (queue_manager b)) as Hc.
  fold q in Hfst, Hc. rewrite Hfst. clear Hfst.
  set (qs1 := (add_to_queue M chat_id r (queue_manager b)).2) in *.
  destruct (Z.geb_spec (Z.of_nat (length q)) M) as [Hfull|Hroom].
  - split_and!; try (intros; lia). intros _. simpl. step_handler.
    split; [|done]. split; [done|]. intros c. simpl. rewrite Hc.
    destruct (decide (_ ∧ _)) as [[_ ?]|_]; [lia|done].
  - assert (Hqs1 : ∀ c, contents qs1 c
                        = if decide (chat_id = c) then q ++ [r]
                          else contents (queue_manager b) c).
    { intros c. rewrite Hc. destruct (decide (chat_id = c)) as [->|Hne].
      - rewrite decide_True; done.
      - rewrite decide_False; [done|]. by intros [? _]. }
    clear Hc.
    split_and!; try (intros; lia); intros _ Hq.
    + assert ((Z.of_nat (length q) + 1 =? 1) = false) as ->.
      { apply Z.eqb_neq. destruct q; [done|]. simpl. lia. }
      step_handler. done.
    + intros Hfs. rewrite Hq in *. simpl. step_handler.
      rewrite play_audio_fst, Hfs. simpl. step_handler.
      split_and!; [done| |done].
      intros c. rewrite Hqs1. by case_decide.
    + intros Hfs. rewrite Hq in *. simpl. step_handler.
      rewrite play_audio_fst, Hfs. simpl. step_handler.
      rewrite play_audio_failed by done. split; [|done].
      split; [done|]. intros c. simpl.
      rewrite remove_from_queue_contents, (Hqs1 chat_id), decide_True by done.
      change ([] ++ [r]) with [r]. rewrite list_find_head, Hqs1.
      case_decide; subst; [symmetry; exact Hq|done].
Qed.
End PlayFacts.

Section AdvanceFacts.
Implicit Types (b : Bot) (chat_id c : Z) (path_exists : string → bool).

(** Reading the current song and removing it takes the head off the queue. *)
Lemma remove_current_contents chat_id (qs : gmap Z (list Track)) cur rest c :
  contents qs chat_id = cur :: rest →
  contents (remove_from_queue chat_id cur (get_current_song chat_id qs).2).2 c
  = if decide (chat_id = c) then rest else contents qs c.
Proof.
  intros Hq.
  rewrite remove_from_queue_contents, !get_current_song_contents, Hq.
  by rewrite list_find_head.
Qed.

Lemma skip_command_empty path_exists chat_id b :
  contents (queue_manager b) chat_id = [] →
  bot_equiv (exec (skip_command path_exists chat_id) b) b ∧
  trace (skip_command path_exists chat_id) b = [Reply MsgNothingPlaying].
Proof.
  intros Hq. unfold skip_command. step_handler.
  rewrite get_current_song_fst, Hq. simpl. step_handler.
  split; [|done]. split; [done|]. intros c. simpl.
  apply get_current_song_contents.
Qed.

Lemma skip_command_last path_exists chat_id b cur :
  contents (queue_manager b) chat_id = [cur] →
  music_player (exec (skip_command path_exists chat_id) b)
  = (stop_audio chat_id (music_player b)).2 ∧
  (∀ c, contents (queue_manager (exec (skip_command path_exists chat_id) b)) c
        = if decide (chat_id = c) then []
          else contents (queue_manager b) c) ∧
  trace (skip_command path_exists chat_id) b
  = [BackendStop chat_id; Reply MsgSkippedNoMore].
Proof.
  intros Hq. unfold skip_command. step_handler.
  rewrite get_current_song_fst, Hq. simpl. step_handler.
  pose proof (remove_current_contents chat_id (queue_manager b) cur [] chat_id
                Hq) as Hrest.
  rewrite decide_True in Hrest by done.
  rewrite get_current_song_fst, Hrest. simpl. step_handler.
  split_and!; [done| |done]. intros c. simpl.
  rewrite get_current_song_contents.
  by apply remove_current_contents.
Qed.

Lemma skip_command_next path_exists chat_id b cur next rest :
  contents (queue_manager b) chat_id = cur :: next :: rest →
  music_player (exec (skip_command path_exists chat_id) b)
  = (play_audio path_exists chat_id (file_path next) (music_player b)).2 ∧
  (∀ c, contents (queue_manager (exec (skip_command path_exists chat_id) b)) c
        = if decide (chat_id = c) then next :: rest
          else contents (queue_manager b) c) ∧
  trace (skip_command path_exists chat_id) b
  = [Reply (MsgSkippedNowPlaying (title next));
     BackendStart chat_id (file_path next) (path_exists (file_path next))].
Proof.
  intros Hq. unfold skip_command. step_handler.
  rewrite get_current_song_fst, Hq. simpl. step_handler.
  pose proof (remove_current_contents chat_id (queue_manager b) cur
                (next :: rest) chat_id Hq) as Hrest.
  rewrite decide_True in Hrest by done.
  rewrite get_current_song_fst, Hrest. simpl. step_handler.
  rewrite play_audio_fst.
  split_and!; [done| |done]. intros c. simpl.
  rewrite get_current_song_contents.
  by apply remove_current_contents.
Qed.

Lemma handle_song_finished_empty path_exists chat_id b :
  contents (queue_manager b) chat_id = [] →
  music_player (exec (_handle_song_finished path_exists chat_id) b)
  = (stop_audio chat_id (music_player b)).2 ∧
  (∀ c, contents (queue_manager
                    (exec (_handle_song_finished path_exists chat_id) b)) c
        = contents (queue_manager b) c) ∧
  trace (_handle_song_finished path_exists chat_id) b = [BackendStop chat_id].
Proof.
  intros Hq. unfold _handle_song_finished. step_handler.
  rewrite (get_current_song_fst chat_id (queue_manager b)), Hq. simpl.
  step_handler.
  rewrite get_current_song_fst, get_current_song_contents, Hq. simpl.
  step_handler. split_and!; [done| |done]. intros c. simpl.
  by rewrite !get_current_song_contents.
Qed.

Lemma handle_song_finished_last path_exists chat_id b cur :
  contents (queue_manager b) chat_id = [cur] →
  music_player (exec (_handle_song_finished path_exists chat_id) b)
  = (stop_audio chat_id (music_player b)).2 ∧
  (∀ c, contents (queue_manager
                    (exec (_handle_song_finished path_exists chat_id) b)) c
        = if decide (chat_id = c) then []
          else contents (queue_manager b) c) ∧
  trace (_handle_song_finished path_exists chat_id) b = [BackendStop chat_id].
Proof.
  intros Hq. unfold _handle_song_finished. step_handler.
  rewrite (get_current_song_fst chat_id (queue_manager b)), Hq. simpl.
  step_handler.
  pose proof (remove_current_contents chat_id (queue_manager b) cur [] chat_id
                Hq) as Hrest.
  rewrite decide_True in Hrest by done.
  rewrite get_current_song_fst, Hrest. simpl. step_handler.
  split_and!; [done| |done]. intros c. simpl.
  rewrite get_current_song_contents.
  by apply remove_current_contents.
Qed.

Lemma handle_song_finished_next path_exists chat_id b cur next rest :
  contents (queue_manager b) chat_id = cur :: next :: rest →
  music_player (exec (_handle_song_finished path_exists chat_id) b)
  = (play_audio path_exists chat_id (file_path next) (music_player b)).2 ∧
  (∀ c, contents (queue_manager
                    (exec (_handle_song_finished path_exists chat_id) b)) c
        = if decide (chat_id = c) then next :: rest
          else contents (queue_manager b) c) ∧
  trace (_handle_song_finished path_exists chat_id) b
  = [BackendStart chat_id (file_path next) (path_exists (file_path next))].
Proof.
  intros Hq. unfold _handle_song_finished. step_handler.
  rewrite (get_current_song_fst chat_id (queue_manager b)), Hq. simpl.
  step_handler.
  pose proof (remove_current_contents chat_id (queue_manager b) cur
                (next :: rest) chat_id Hq) as Hrest.
  rewrite decide_True in Hrest by done.
  rewrite get_current_song_fst, Hrest. simpl. step_handler.
  rewrite play_audio_fst.
  split_and!; [done| |done]. intros c. simpl.
  rewrite get_current_song_contents.
  by apply remove_current_contents.
Qed.
End AdvanceFacts.

(** ** Reachable bots *)
Section Reachability.
Implicit Types (b : Bot) (chat_id c : Z) (path_exists : string → bool).

Lemma play_command_no_args M path_exists chat_id result b :
  exec (play_command M path_exists chat_id [] result) b = b ∧
  trace (play_command M path_exists chat_id [] result) b = [Reply MsgUsage].
Proof. done. Qed.

Lemma play_command_no_result M path_exists chat_id a args b :
  exec (play_command M path_exists chat_id (a :: args) None) b = b ∧
  trace (play_command M path_exists chat_id (a :: args) None) b
  = [Reply (MsgSearching (join_args (a :: args))); Edit MsgNoResults].
Proof. done. Qed.

Lemma play_command_preserves M path_exists chat_id args result b :
  active_has_queue b →
  active_has_queue (exec (play_command M path_exists chat_id args result) b).
Proof.
  intros Hinv. destruct args as [|a args]; [done|].
  destruct result as [r|]; [|done].
  destruct (play_command_some M path_exists chat_id a args r b)
    as (Hfull & Hmore & Hstart & Hfail).
  set (q := contents (queue_manager b) chat_id) in *.
  destruct (Z_le_gt_dec M (Z.of_nat (length q))) as [Hle|Hgt].
  { destruct (Hfull Hle) as [[Hp Hc] _]. intros c. rewrite Hp, Hc. apply Hinv. }
  assert (Hlt : Z.of_nat (length q) < M) by lia.
  destruct (decide (q = [])) as [Hq|Hq].
  - destruct (path_exists (file_path r)) eqn:Hfs.
    + destruct (Hstart Hlt Hq eq_refl) as (Hp & Hc & _).
      intros c. rewrite Hp, Hc. intros Hact.
      apply in_active_play_audio in Hact as [->|Hact].
      * by rewrite decide_True.
      * case_decide; [done|]. by apply Hinv.
    + destruct (Hfail Hlt Hq eq_refl) as [[Hp Hc] _].
      intros c. rewrite Hp, Hc. apply Hinv.
  - destruct (Hmore Hlt Hq) as (Hp & Hc & _).
    intros c. rewrite Hp, Hc. intros Hact. case_decide.
    + intros Happ. by apply app_eq_nil in Happ as [_ ?].
    + by apply Hinv.
Qed.

Lemma advance_preserves path_exists chat_id b b' :
  active_has_queue b →
  (∀ c, contents (queue_manager b') c
        = if decide (chat_id = c) then tail (contents (queue_manager b) chat_id)
          else contents (queue_manager b) c) →
  music_player b'
  = match tail (contents (queue_manager b) chat_id) with
    | next :: _ =>
        (play_audio path_exists chat_id (file_path next) (music_player b)).2
    | [] => (stop_audio chat_id (music_player b)).2
    end →
  active_has_queue b'.
Proof.
  intros Hinv Hc Hp c. rewrite Hp, Hc.
  destruct (tail (contents (queue_manager b) chat_id)) as [|next rest].
  - rewrite in_active_stop_audio. intros [Hact Hne]%andb_prop.
    apply negb_true_iff, bool_decide_eq_false in Hne.
    rewrite decide_False by done. by apply Hinv.
  - intros Hact. case_decide; [done|].
    apply in_active_play_audio in Hact as [->|Hact]; [done|].
    by apply Hinv.
Qed.

Lemma skip_command_preserves path_exists chat_id b :
  active_has_queue b →
  active_has_queue (exec (skip_command path_exists chat_id) b).
Proof.
  intros Hinv.
  destruct (contents (queue_manager b) chat_id) as [|cur [|next rest]] eqn:Hq.
  - destruct (skip_command_empty path_exists chat_id b Hq) as [[Hp Hc] _].
    intros c. rewrite Hp, Hc. apply Hinv.
  - destruct (skip_command_last path_exists chat_id b cur Hq) as (Hp & Hc & _).
    apply (advance_preserves path_exists chat_id b); rewrite ?Hq; done.
  - destruct (skip_command_next path_exists chat_id b cur next rest Hq)
      as (Hp & Hc & _).
    apply (advance_preserves path_exists chat_id b); rewrite ?Hq; done.
Qed.

Lemma handle_song_finished_preserves path_exists chat_id b :
  active_has_queue b →
  active_has_queue (exec (_handle_song_finished path_exists chat_id) b).
Proof.
  intros Hinv.
  destruct (contents (queue_manager b) chat_id) as [|cur [|next rest]] eqn:Hq.
  - destruct (handle_song_finished_empty path_exists chat_id b Hq)
      as (Hp & Hc & _).
    apply (advance_preserves path_exists chat_id b); rewrite ?Hq; try done.
    intros c. rewrite Hc. case_decide; subst; done.
  - destruct (handle_song_finished_last path_exists chat_id b cur Hq)
      as (Hp & Hc & _).
    apply (advance_preserves path_exists chat_id b); rewrite ?Hq; done.
  - destruct (handle_song_finished_next path_exists chat_id b cur next rest Hq)
      as (Hp & Hc & _).
    apply (advance_preserves path_exists chat_id b); rewrite ?Hq; done.
Qed.

Lemma handle_preserves M path_exists u b :
  active_has_queue b → active_has_queue (exec (handle M path_exists u) b).
Proof.
  intros Hinv. destruct u; simpl.
  - done.
  - done.
  - by apply play_command_preserves.
  - unfold pause_command. step_handler.
    destruct (pause_audio chat_id (music_player b)).1; step_handler;
      intros c; simpl; rewrite in_active_pause_audio; apply Hinv.
  - unfold resume_command. step_handler.
    destruct (resume_audio chat_id (music_player b)).1; step_handler;
      intros c; simpl; rewrite in_active_resume_audio; apply Hinv.
  - unfold stop_command. step_handler. intros c. simpl.
    rewrite in_active_stop_audio, clear_queue_contents.
    intros [Hact Hne]%andb_prop.
    apply negb_true_iff, bool_decide_eq_false in Hne.
    rewrite decide_False by done. by apply Hinv.
  - by apply skip_command_preserves.
  - unfold queue_command, get_queue. step_handler.
    assert (Hc : ∀ c, contents (getitem chat_id (queue_manager b)).2 c
                      = contents (queue_manager b) c)
      by (intros c; apply contents_getitem).
    destruct (getitem chat_id (queue_manager b)).1; step_handler;
      intros c; simpl; rewrite Hc; apply Hinv.
  - by apply handle_song_finished_preserves.
  - intros c. unfold playback_thread_finish, exec. simpl. intros Hact.
    apply in_active_simulate_playback_finish in Hact. by apply Hinv.
Qed.

Lemma reachable_active_has_queue M b : reachable M b → active_has_queue b.
Proof.
  induction 1 as [|b path_exists u _ IH].
  - intros c. by vm_compute.
  - by apply handle_preserves.
Qed.
End Reachability.

(** ** Claims about the session *)
Section PlayClaims.
Implicit Types (b : Bot) (chat_id c : Z) (path_exists : string → bool).

Lemma count_starts_app c (t1 t2 : list Event) :
  count_starts c (t1 ++ t2) = (count_starts c t1 + count_starts c t2)%nat.
Proof. unfold count_starts. by rewrite filter_app, length_app. Qed.

Lemma count_starts_start c path ok (t : list Event) :
  count_starts c (BackendStart c path ok :: t) = S (count_starts c t).
Proof.
  unfold count_starts. rewrite filter_cons_True; [done|].
  simpl. by apply bool_decide_eq_true_2.
Qed.

Lemma count_starts_other c e (t : list Event) :
  is_start c e = false → count_starts c (e :: t) = count_starts c t.
Proof.
  intros He. unfold count_starts. rewrite filter_cons_False; [done|].
  by rewrite He.
Qed.

(** A [/play] while the chat's queue holds a song never reaches the backend. *)
Lemma play_command_nonempty M path_exists chat_id args result b :
  contents (queue_manager b) chat_id ≠ [] →
  let cmd := play_command M path_exists chat_id args result in
  music_player (exec cmd b) = music_player b ∧
  head (contents (queue_manager (exec cmd b)) chat_id)
  = head (contents (queue_manager b) chat_id) ∧
  (∀ c, c ≠ chat_id →
        contents (queue_manager (exec cmd b)) c
        = contents (queue_manager b) c) ∧
  ∀ c, count_starts c (trace cmd b) = 0%nat.
Proof.
  intros Hq cmd. unfold cmd.
  destruct args as [|a args]; [done|]. destruct result as [r|]; [|done].
  destruct (play_command_some M path_exists chat_id a args r b)
    as (Hfull & Hmore & _).
  destruct (Z_le_gt_dec M (Z.of_nat (length (contents (queue_manager b) chat_id))))
    as [Hle|Hgt].
  - destruct (Hfull Hle) as [[Hp Hc] ->]. by rewrite Hc.
  - destruct (Hmore ltac:(lia) Hq) as (Hp & Hc & ->).
    split_and!; [done| | |done].
    + rewrite Hc, decide_True by done.
      by destruct (contents (queue_manager b) chat_id).
    + intros c Hne. rewrite Hc. by rewrite decide_False.
Qed.

Lemma run_plays_nonempty M chat_id rest :
  Forall (is_play_for chat_id) rest →
  ∀ b, contents (queue_manager b) chat_id ≠ [] →
  music_player (exec (run M rest) b) = music_player b ∧
  head (contents (queue_manager (exec (run M rest) b)) chat_id)
  = head (contents (queue_manager b) chat_id) ∧
  ∀ c, count_starts c (trace (run M rest) b) = 0%nat.
Proof.
  induction 1 as [|[path_exists u] rest Hu _ IH]; intros b Hq; [done|].
  destruct u; try done. unfold is_play_for in Hu. simpl in Hu. subst.
  simpl. step_handler.
  destruct (play_command_nonempty M path_exists chat_id args result b Hq)
    as (Hp & Hh & _ & Hn).
  set (b1 := exec (play_command M path_exists chat_id args result) b) in *.
  destruct (IH b1) as (Hp' & Hh' & Hn').
  { intros Hnil. rewrite Hnil in Hh.
    by destruct (contents (queue_manager b) chat_id). }
  split_and!; [congruence|congruence|].
  intros c. by rewrite count_starts_app, Hn, Hn'.
Qed.

(** C1, as the code has it. A [/play] that finds the chat's queue empty and
    whose start succeeds gets position 1, calls the backend's start exactly
    once and leaves the chat Playing with that one song queued. A [/play]
    that finds the queue non-empty never calls start and leaves the player
    alone: below [MAX_QUEUE_SIZE] it gets a position greater than 1 and
    appends; at [MAX_QUEUE_SIZE] it gets [-1] and the queue stays as it is.
    So a run of [/play]s from an empty queue that begins with a successful
    one holds exactly one start, and ends Playing on that first song. *)
Theorem play_starts_playback_once (MAX_QUEUE_SIZE : Z) chat_id :
  (∀ path_exists a args r b,
     contents (queue_manager b) chat_id = [] → 1 <= MAX_QUEUE_SIZE →
     path_exists (file_path r) = true →
     let cmd :=
       play_command MAX_QUEUE_SIZE path_exists chat_id (a :: args) (Some r) in
     (add_to_queue MAX_QUEUE_SIZE chat_id r (queue_manager b)).1 = 1 ∧
     count_starts chat_id (trace cmd b) = 1%nat ∧
     BackendStart chat_id (file_path r) true ∈ trace cmd b ∧
     session_state (music_player (exec cmd b)) chat_id = Playing ∧
     contents (queue_manager (exec cmd b)) chat_id = [r]) ∧
  (∀ path_exists args result b,
     contents (queue_manager b) chat_id ≠ [] →
     let cmd := play_command MAX_QUEUE_SIZE path_exists chat_id args result in
     let q := contents (queue_manager b) chat_id in
     (∀ c, count_starts c (trace cmd b) = 0%nat) ∧
     music_player (exec cmd b) = music_player b ∧
     (∀ c, c ≠ chat_id →
           contents (queue_manager (exec cmd b)) c
           = contents (queue_manager b) c) ∧
     ∀ a args' r, args = a :: args' → result = Some r →
       let pos := (add_to_queue MAX_QUEUE_SIZE chat_id r (queue_manager b)).1 in
       (Z.of_nat (length q) < MAX_QUEUE_SIZE →
          1 < pos ∧ contents (queue_manager (exec cmd b)) chat_id = q ++ [r]) ∧
       (MAX_QUEUE_SIZE <= Z.of_nat (length q) →
          pos = -1 ∧ contents (queue_manager (exec cmd b)) chat_id = q)) ∧
  (∀ path_exists a args r rest b,
     contents (queue_manager b) chat_id = [] → 1 <= MAX_QUEUE_SIZE →
     path_exists (file_path r) = true →
     Forall (is_play_for chat_id) rest →
     let all :=
       run MAX_QUEUE_SIZE
         ((path_exists, CmdPlay chat_id (a :: args) (Some r)) :: rest) in
     count_starts chat_id (trace all b) = 1%nat ∧
     session_state (music_player (exec all b)) chat_id = Playing ∧
     head (contents (queue_manager (exec all b)) chat_id) = Some r).
Proof.
  assert (Hfirst : ∀ path_exists a args r b,
     contents (queue_manager b) chat_id = [] → 1 <= MAX_QUEUE_SIZE →
     path_exists (file_path r) = true →
     let cmd :=
       play_command MAX_QUEUE_SIZE path_exists chat_id (a :: args) (Some r) in
     (add_to_queue MAX_QUEUE_SIZE chat_id r (queue_manager b)).1 = 1 ∧
     count_starts chat_id (trace cmd b) = 1%nat ∧
     BackendStart chat_id (file_path r) true ∈ trace cmd b ∧
     session_state (music_player (exec cmd b)) chat_id = Playing ∧
     contents (queue_manager (exec cmd b)) chat_id = [r]).
  { intros path_exists a args r b Hq HM Hfs cmd. unfold cmd.
    destruct (play_command_some MAX_QUEUE_SIZE path_exists chat_id a args r b)
      as (_ & _ & Hstart & _).
    assert (Hroom : Z.of_nat (length (contents (queue_manager b) chat_id))
                    < MAX_QUEUE_SIZE) by (rewrite Hq; simpl; lia).
    destruct (Hstart Hroom Hq Hfs) as (Hp & Hc & Ht).
    rewrite add_to_queue_fst, Hq, Ht, Hp, Hc, decide_True by done.
    destruct (Z.geb_spec (Z.of_nat (length (@nil Track))) MAX_QUEUE_SIZE);
      [simpl in *; lia|].
    split_and!; [done| | | |done].
    - by rewrite !count_starts_other, count_starts_start by done.
    - rewrite !elem_of_cons. auto.
    - by apply play_audio_started. }
  split_and!; [exact Hfirst| |].
  - intros path_exists args result b Hq cmd q.
    destruct (play_command_nonempty MAX_QUEUE_SIZE path_exists chat_id args
                result b Hq) as (Hp & _ & Hother & Hn).
    split_and!; [done|done|done|].
    intros a args' r -> -> pos. unfold pos, cmd.
    destruct (play_command_some MAX_QUEUE_SIZE path_exists chat_id a args' r b)
      as (Hfull & Hmore & _).
    fold q in Hfull, Hmore. rewrite add_to_queue_fst. fold q. split.
    + intros Hlt. destruct (Hmore Hlt Hq) as (_ & Hc & _).
      rewrite Hc, decide_True by done.
      destruct (Z.geb_spec (Z.of_nat (length q)) MAX_QUEUE_SIZE); [lia|].
      split; [|done].
      destruct (length q) eqn:E; [by apply nil_length_inv in E|lia].
    + intros Hle. destruct (Hfull Hle) as [[_ Hc] _]. rewrite Hc.
      by destruct (Z.geb_spec (Z.of_nat (length q)) MAX_QUEUE_SIZE); [|lia].
  - intros path_exists a args r rest b Hq HM Hfs Hrest all. unfold all.
    cbn [run handle]. step_handler.
    destruct (Hfirst path_exists a args r b Hq HM Hfs)
      as (_ & Hone & _ & Hplaying & Hc).
    set (b1 := exec (play_command MAX_QUEUE_SIZE path_exists chat_id
                       (a :: args) (Some r)) b) in *.
    destruct (run_plays_nonempty MAX_QUEUE_SIZE chat_id rest Hrest b1)
      as (Hp & Hh & Hn); [by rewrite Hc|].
    rewrite count_starts_app, Hone, Hn, Hp, Hh, Hc. done.
Qed.

Lemma play_starts_playback_once_witness :
  let all := run 20 [((λ _, true), CmdPlay 7 ["a"] (Some songA));
                     ((λ _, false), CmdPlay 7 ["b"] (Some songB));
                     ((λ _, true), CmdPlay 7 [] None)] in
  count_starts 7 (trace all MusicBot.init) = 1%nat ∧
  session_state (music_player (exec all MusicBot.init)) 7 = Playing ∧
  head (contents (queue_manager (exec all MusicBot.init)) 7) = Some songA.
Proof.
  destruct (play_starts_playback_once 20 7) as (_ & _ & H).
  apply (H (λ _, true) "a" [] songA
           [((λ _, false), CmdPlay 7 ["b"] (Some songB));
            ((λ _, true), CmdPlay 7 [] None)] MusicBot.init).
  - reflexivity.
  - lia.
  - reflexivity.
  - repeat constructor.
Defined.

(** C1 as stated fails once the queue is full: with the default bound of 20,
    the 21st [/play] in a row finds a non-empty queue and gets [-1], which is
    not a position greater than 1, and nothing is appended. *)
Lemma play_on_full_queue_gets_no_position :
  let fs := λ _ : string, true in
  let b := exec (run Config.default_MAX_QUEUE_SIZE
                   (replicate 20 (fs, CmdPlay 7 ["a"] (Some songA))))
             MusicBot.init in
  let r := add_to_queue Config.default_MAX_QUEUE_SIZE 7 songB (queue_manager b) in
  let cmd := play_command Config.default_MAX_QUEUE_SIZE fs 7 ["b"] (Some songB) in
  contents (queue_manager b) 7 = replicate 20 songA ∧
  r.1 = -1 ∧ ¬ (1 < r.1) ∧
  contents (queue_manager (exec cmd b)) 7 = replicate 20 songA ∧
  trace cmd b = [Reply (MsgSearching "b"); Edit (MsgAddedToQueue (-1) "B")].
Proof. vm_compute. split_and!; try done. Qed.
End PlayClaims.

Section AdvanceClaims.
Implicit Types (b : Bot) (chat_id c : Z) (path_exists : string → bool).

(** C2, as the code has it. [/skip] on an empty queue only replies that
    nothing is playing: the player and every queue stay as they were. On a
    non-empty queue it removes the head, found by its own title and url at
    index 0; if a song is then at the head, the backend's start is called
    on that song's file path, and the chat is Playing when that start
    succeeds; if no song is left, the backend is stopped and the chat is
    Idle. [_handle_song_finished] leaves the same bot behind. *)
Theorem skip_command_advances path_exists chat_id b :
  let cmd := skip_command path_exists chat_id in
  let q := contents (queue_manager b) chat_id in
  (q = [] →
     bot_equiv (exec cmd b) b ∧ trace cmd b = [Reply MsgNothingPlaying]) ∧
  (∀ cur rest, q = cur :: rest →
     list_find (same_song cur) q = Some (0%nat, cur) ∧
     contents (queue_manager (exec cmd b)) chat_id = rest ∧
     (∀ c, c ≠ chat_id →
           contents (queue_manager (exec cmd b)) c
           = contents (queue_manager b) c) ∧
     match rest with
     | next :: _ =>
         trace cmd b
         = [Reply (MsgSkippedNowPlaying (title next));
            BackendStart chat_id (file_path next)
              (path_exists (file_path next))] ∧
         (path_exists (file_path next) = true →
          session_state (music_player (exec cmd b)) chat_id = Playing)
     | [] =>
         trace cmd b = [BackendStop chat_id; Reply MsgSkippedNoMore] ∧
         session_state (music_player (exec cmd b)) chat_id = Idle
     end ∧
     bot_equiv (exec (_handle_song_finished path_exists chat_id) b)
               (exec cmd b)).
Proof.
  intros cmd q. split.
  { intros Hq. by apply skip_command_empty. }
  intros cur rest Hq. unfold q in Hq. unfold cmd.
  split; [unfold q; rewrite Hq; apply list_find_head|].
  destruct rest as [|next rest].
  - destruct (skip_command_last path_exists chat_id b cur Hq) as (Hp & Hc & Ht).
    destruct (handle_song_finished_last path_exists chat_id b cur Hq)
      as (Hp' & Hc' & _).
    rewrite Hp, Ht. split_and!.
    + by rewrite Hc, decide_True.
    + intros c Hne. by rewrite Hc, decide_False.
    + done.
    + apply stop_audio_idle.
    + split; [congruence|]. intros c. by rewrite Hc, Hc'.
  - destruct (skip_command_next path_exists chat_id b cur next rest Hq)
      as (Hp & Hc & Ht).
    destruct (handle_song_finished_next path_exists chat_id b cur next rest Hq)
      as (Hp' & Hc' & _).
    rewrite Hp, Ht. split_and!.
    + by rewrite Hc, decide_True.
    + intros c Hne. by rewrite Hc, decide_False.
    + done.
    + intros Hfs. by apply play_audio_started.
    + split; [congruence|]. intros c. by rewrite Hc, Hc'.
Qed.

Lemma skip_command_advances_witness :
  let b := {| queue_manager := {[ 7 := [songA; songB] ]};
              music_player := MusicPlayer.init |} in
  let cmd := skip_command (λ _, true) 7 in
  contents (queue_manager (exec cmd b)) 7 = [songB] ∧
  trace cmd b = [Reply (MsgSkippedNowPlaying "B");
                 BackendStart 7 "./downloads/B.mp3" true] ∧
  session_state (music_player (exec cmd b)) 7 = Playing.
Proof.
  intros b cmd.
  destruct (skip_command_advances (λ _, true) 7 b) as [_ H].
  destruct (H songA [songB] eq_refl) as (_ & Hc & _ & [Ht Hs] & _).
  split_and!; [exact Hc|exact Ht|exact (Hs eq_refl)].
Defined.

(** C2 as stated fails when the start of the new head fails. Two songs are
    queued, playback is paused, and the second song's file is gone by the
    time of the [/skip]: the head is removed, the start is refused, and the
    chat is still Paused, not Playing. *)
Lemma skip_with_missing_file_stays_paused :
  let all := λ _ : string, true in
  let b := exec (run 20 [(all, CmdPlay 7 ["a"] (Some songA));
                         (all, CmdPlay 7 ["b"] (Some songB));
                         (all, CmdPause 7)]) MusicBot.init in
  let gone := λ path, negb (String.eqb path (file_path songB)) in
  let cmd := skip_command gone 7 in
  contents (queue_manager b) 7 = [songA; songB] ∧
  session_state (music_player b) 7 = Paused ∧
  contents (queue_manager (exec cmd b)) 7 = [songB] ∧
  trace cmd b = [Reply (MsgSkippedNowPlaying "B");
                 BackendStart 7 "./downloads/B.mp3" false] ∧
  session_state (music_player (exec cmd b)) 7 = Paused ∧
  session_state (music_player (exec cmd b)) 7 ≠ Playing.
Proof. vm_compute. split_and!; done. Qed.

(** C3. In a reachable bot, when [/play] puts its song at position 1 and
    the backend's start then fails: the queue was empty and is empty again
    (the song is removed), every other queue and the whole player are as
    before, the chat was Idle and is Idle, and the replies end with the
    failure message. *)
Theorem play_start_failure_rolls_back (MAX_QUEUE_SIZE : Z) path_exists
  chat_id a args r b :
  reachable MAX_QUEUE_SIZE b →
  (add_to_queue MAX_QUEUE_SIZE chat_id r (queue_manager b)).1 = 1 →
  (play_audio path_exists chat_id (file_path r) (music_player b)).1 = false →
  let cmd :=
    play_command MAX_QUEUE_SIZE path_exists chat_id (a :: args) (Some r) in
  contents (queue_manager b) chat_id = [] ∧
  contents (queue_manager (exec cmd b)) chat_id = [] ∧
  (∀ c, contents (queue_manager (exec cmd b)) c
        = contents (queue_manager b) c) ∧
  music_player (exec cmd b) = music_player b ∧
  session_state (music_player b) chat_id = Idle ∧
  session_state (music_player (exec cmd b)) chat_id = Idle ∧
  trace cmd b = [Reply (MsgSearching (join_args (a :: args)));
                 Edit (MsgNowPlaying (title r));
                 BackendStart chat_id (file_path r) false;
                 Reply MsgFailedToJoin].
Proof.
  intros Hreach Hpos Hplay cmd. unfold cmd.
  rewrite add_to_queue_fst in Hpos. rewrite play_audio_fst in Hplay.
  destruct (Z.geb_spec (Z.of_nat (length (contents (queue_manager b) chat_id)))
              MAX_QUEUE_SIZE) as [Hfull|Hroom]; [done|].
  assert (Hq : contents (queue_manager b) chat_id = []).
  { apply nil_length_inv. lia. }
  destruct (play_command_some MAX_QUEUE_SIZE path_exists chat_id a args r b)
    as (_ & _ & _ & Hfail).
  destruct (Hfail Hroom Hq Hplay) as [[Hp Hc] Ht].
  assert (Hidle : session_state (music_player b) chat_id = Idle).
  { apply session_state_idle.
    destruct (in_active (music_player b) chat_id) eqn:Hact; [|done].
    by apply (reachable_active_has_queue _ _ Hreach) in Hact. }
  rewrite Hp, Ht. split_and!; try done. by rewrite Hc.
Qed.

Lemma play_start_failure_rolls_back_witness :
  let all := λ _ : string, true in
  let none := λ _ : string, false in
  let b := exec (handle 20 all (CmdPlay 8 ["b"] (Some songB))) MusicBot.init in
  let cmd := play_command 20 none 7 ["a"] (Some songA) in
  contents (queue_manager (exec cmd b)) 7 = [] ∧
  contents (queue_manager (exec cmd b)) 8 = [songB] ∧
  music_player (exec cmd b) = music_player b ∧
  session_state (music_player (exec cmd b)) 7 = Idle.
Proof.
  intros all none b cmd.
  destruct (play_start_failure_rolls_back 20 none 7 "a" [] songA b)
    as (_ & H7 & Hc & Hp & _ & Hidle & _).
  - apply reachable_step, reachable_init.
  - reflexivity.
  - reflexivity.
  - split_and!; [exact H7| |exact Hp|exact Hidle].
    exact (eq_trans (Hc 8) eq_refl).
Defined.

(** C5, as the code has it. While a chat is Paused, the playback simulation
    never ends the track: the end of [simulate_playback] changes nothing.
    [_handle_song_finished] itself has no such test: run on a Paused chat it
    takes the head off the queue and then either stops the backend (no song
    left: Idle, paused flag gone) or calls start on the new head (Playing,
    paused flag cleared, when that start succeeds). *)
Theorem finished_while_paused path_exists chat_id b :
  session_state (music_player b) chat_id = Paused →
  let fin := _handle_song_finished path_exists chat_id in
  exec (playback_thread_finish chat_id) b = b ∧
  contents (queue_manager (exec fin b)) chat_id
  = tail (contents (queue_manager b) chat_id) ∧
  match tail (contents (queue_manager b) chat_id) with
  | [] =>
      session_state (music_player (exec fin b)) chat_id = Idle ∧
      paused_flag (music_player (exec fin b)) chat_id = false
  | next :: _ =>
      path_exists (file_path next) = true →
      session_state (music_player (exec fin b)) chat_id = Playing ∧
      paused_flag (music_player (exec fin b)) chat_id = false
  end.
Proof.
  intros [Hact Hpaused]%session_state_paused fin. unfold fin. split_and!.
  - unfold playback_thread_finish, exec, simulate_playback_finish. simpl.
    rewrite Hact, Hpaused. simpl. by destruct b.
  - destruct (contents (queue_manager b) chat_id) as [|cur [|next rest]] eqn:Hq.
    + destruct (handle_song_finished_empty path_exists chat_id b Hq)
        as (_ & Hc & _). by rewrite Hc, Hq.
    + destruct (handle_song_finished_last path_exists chat_id b cur Hq)
        as (_ & Hc & _). by rewrite Hc, decide_True.
    + destruct (handle_song_finished_next path_exists chat_id b cur next rest Hq)
        as (_ & Hc & _). by rewrite Hc, decide_True.
  - assert (Hstopped :
      session_state (stop_audio chat_id (music_player b)).2 chat_id = Idle ∧
      paused_flag (stop_audio chat_id (music_player b)).2 chat_id = false).
    { split; [apply stop_audio_idle|].
      unfold stop_audio. rewrite Hact. unfold paused_flag. simpl.
      by rewrite lookup_delete_eq. }
    destruct (contents (queue_manager b) chat_id) as [|cur [|next rest]] eqn:Hq;
      simpl.
    + destruct (handle_song_finished_empty path_exists chat_id b Hq)
        as (Hp & _). by rewrite Hp.
    + destruct (handle_song_finished_last path_exists chat_id b cur Hq)
        as (Hp & _). by rewrite Hp.
    + destruct (handle_song_finished_next path_exists chat_id b cur next rest Hq)
        as (Hp & _). rewrite Hp. intros Hfs.
      destruct (play_audio_started path_exists chat_id (file_path next)
                  (music_player b) Hfs) as (? & ? & _). done.
Qed.

Lemma finished_while_paused_witness :
  let all := λ _ : string, true in
  let b := exec (run 20 [(all, CmdPlay 7 ["a"] (Some songA));
                         (all, CmdPlay 7 ["b"] (Some songB));
                         (all, CmdPause 7)]) MusicBot.init in
  let fin := _handle_song_finished all 7 in
  exec (playback_thread_finish 7) b = b ∧
  contents (queue_manager (exec fin b)) 7 = [songB] ∧
  session_state (music_player (exec fin b)) 7 = Playing.
Proof.
  intros all b fin.
  destruct (finished_while_paused all 7 b) as (Hthread & Hc & Hs).
  - reflexivity.
  - split_and!; [exact Hthread|exact Hc|]. exact (proj1 (Hs eq_refl)).
Defined.

(** C5 as stated fails: a song is played and paused, and the finished
    handler then runs. The queue loses its only song, the paused flag is
    dropped and the chat goes from Paused to Idle. *)
Lemma finished_while_paused_is_not_ignored :
  let all := λ _ : string, true in
  let b := exec (run 20 [(all, CmdPlay 7 ["a"] (Some songA));
                         (all, CmdPause 7)]) MusicBot.init in
  let fin := _handle_song_finished all 7 in
  session_state (music_player b) 7 = Paused ∧
  contents (queue_manager b) 7 = [songA] ∧
  paused_flag (music_player b) 7 = true ∧
  contents (queue_manager (exec fin b)) 7 = [] ∧
  paused_flag (music_player (exec fin b)) 7 = false ∧
  session_state (music_player (exec fin b)) 7 = Idle ∧
  trace fin b = [BackendStop 7].
Proof. vm_compute. split_and!; done. Qed.
End AdvanceClaims.

(** * Further properties of the queue store *)
Section StoreReads.
Implicit Types (qs : gmap Z (list Track)) (chat_id c : Z) (s : Track).

Lemma getitem_entry chat_id qs : is_Some ((getitem chat_id qs).2 !! chat_id).
Proof.
  unfold getitem. destruct (qs !! chat_id) eqn:E; simpl; [by rewrite E|].
  by rewrite lookup_insert_eq.
Qed.

Lemma getitem_present chat_id qs :
  is_Some (qs !! chat_id) → (getitem chat_id qs).2 = qs.
Proof. intros [q Hq]. unfold getitem. by rewrite Hq. Qed.

(** A call that only reads leaves the store as [self.queues[chat_id]] alone
    leaves it. *)
Lemma read_op_store M op qs :
  is_read op = true → apply_op M op qs = (getitem (op_chat op) qs).2.
Proof.
  intros Hop. destruct op; simpl in *; try done.
  - unfold get_current_song.
    by destruct (getitem chat_id qs) as [[|x q] qs1].
  - unfold get_next_song. destruct (getitem chat_id qs) as [q qs1].
    by destruct (1 <? length q)%nat.
  - unfold get_queue_size. by destruct (getitem chat_id qs).
  - unfold get_queue_status. by destruct (getitem chat_id qs).
Qed.

Lemma get_next_song_fst chat_id qs :
  (get_next_song chat_id qs).1 = contents qs chat_id !! 1%nat.
Proof.
  unfold get_next_song. rewrite <- getitem_fst.
  destruct (getitem chat_id qs) as [q qs1]. simpl.
  destruct (Nat.ltb_spec 1 (length q)); simpl; [done|].
  symmetry. apply lookup_ge_None. lia.
Qed.

Lemma get_queue_size_fst chat_id qs :
  (get_queue_size chat_id qs).1 = Z.of_nat (length (contents qs chat_id)).
Proof.
  unfold get_queue_size. rewrite <- getitem_fst.
  by destruct (getitem chat_id qs).
Qed.

(** X8. The reading calls ([get_current_song], [get_next_song],
    [get_queue], [get_queue_size], [get_queue_status]) never change what any
    queue holds; they do leave an entry for the chat behind, and on a chat
    that already has an entry the store is left exactly as it was. *)
Theorem reads_only_create_entry (MAX_QUEUE_SIZE : Z) op qs :
  is_read op = true →
  (∀ c, contents (apply_op MAX_QUEUE_SIZE op qs) c = contents qs c) ∧
  is_Some (apply_op MAX_QUEUE_SIZE op qs !! op_chat op) ∧
  (is_Some (qs !! op_chat op) → apply_op MAX_QUEUE_SIZE op qs = qs) ∧
  (qs !! op_chat op = None →
   apply_op MAX_QUEUE_SIZE op qs = <[op_chat op := []]> qs).
Proof.
  intros Hop. rewrite (read_op_store _ _ _ Hop). split_and!.
  - intros c. apply contents_getitem.
  - apply getitem_entry.
  - apply getitem_present.
  - intros Hnone. unfold getitem. by rewrite Hnone.
Qed.

Lemma reads_only_create_entry_witness :
  contents (apply_op 20 (OpNext 8) {[ 7 := [songA] ]}) 7 = [songA] ∧
  apply_op 20 (OpNext 8) {[ 7 := [songA] ]} !! 8 = Some [].
Proof.
  destruct (reads_only_create_entry 20 (OpNext 8) {[ 7 := [songA] ]})
    as (Hc & _ & _ & Hnew).
  - reflexivity.
  - split; [exact (eq_trans (Hc 7) eq_refl)|].
    rewrite Hnew by reflexivity. reflexivity.
Defined.

(** X9. [get_queue_status] agrees with the other calls: its size, current
    and next song are what [get_queue_size], [get_current_song] and
    [get_next_song] return, [is_full] is true exactly when [add_to_queue]
    would be rejected with [-1], and [has_more] exactly when more than two
    songs are queued. *)
Theorem get_queue_status_agrees (MAX_QUEUE_SIZE : Z) chat_id s qs :
  let st := (get_queue_status MAX_QUEUE_SIZE chat_id qs).1 in
  status_size st = (get_queue_size chat_id qs).1 ∧
  status_max_size st = MAX_QUEUE_SIZE ∧
  status_current_song st = (get_current_song chat_id qs).1 ∧
  status_next_song st = (get_next_song chat_id qs).1 ∧
  (status_is_full st = true ↔
   (add_to_queue MAX_QUEUE_SIZE chat_id s qs).1 = -1) ∧
  (status_has_more st = true ↔ 2 < (get_queue_size chat_id qs).1).
Proof.
  intros st. unfold st.
  rewrite get_queue_size_fst, get_current_song_fst, get_next_song_fst,
    add_to_queue_fst.
  unfold get_queue_status. rewrite <- !(getitem_fst chat_id).
  destruct (getitem chat_id qs) as [q qs1]. simpl. split_and!; try done.
  - destruct (Nat.ltb_spec 1 (length q)); [done|].
    symmetry. apply lookup_ge_None. lia.
  - destruct (Z.geb_spec (Z.of_nat (length q)) MAX_QUEUE_SIZE);
      split; try done; lia.
  - destruct (Nat.ltb_spec 2 (length q)); split; try done; lia.
Qed.
End StoreReads.

Section StoreWrites.
Implicit Types (qs : gmap Z (list Track)) (chat_id c : Z) (s : Track).

(** X1. [remove_from_queue] returns [True] exactly when a queued song has
    the given title and url. It then takes out the first such song and
    nothing else (the queue is one shorter); when it returns [False] no
    queue changes. Other chats are never touched. *)
Theorem remove_from_queue_outcome chat_id s qs :
  let r := remove_from_queue chat_id s qs in
  let before := contents qs chat_id in
  (r.1 = true ↔ ∃ t, t ∈ before ∧ same_song s t) ∧
  (r.1 = false → ∀ c, contents r.2 c = contents qs c) ∧
  (r.1 = true →
     ∃ i t, before !! i = Some t ∧ same_song s t ∧
            (∀ j u, before !! j = Some u → (j < i)%nat → ¬ same_song s u) ∧
            contents r.2 chat_id = delete i before ∧
            S (length (contents r.2 chat_id)) = length before) ∧
  (∀ c, c ≠ chat_id → contents r.2 c = contents qs c).
Proof.
  intros r before. unfold r.
  pose proof (remove_from_queue_contents chat_id s qs) as Hc.
  rewrite remove_from_queue_fst. fold before in Hc |- *.
  destruct (list_find (same_song s) before) as [[i t]|] eqn:Hfind.
  - apply list_find_Some in Hfind as (Hi & Ht & Hfirst).
    split_and!.
    + split; [intros _|done]. exists t. split; [|done].
      by eapply list_elem_of_lookup_2.
    + done.
    + intros _. exists i, t. split_and!; try done.
      * by rewrite Hc, decide_True.
      * rewrite Hc, decide_True by done.
        rewrite length_delete by eauto.
        apply lookup_lt_Some in Hi. lia.
    + intros c Hne. by rewrite Hc, decide_False.
  - apply list_find_None in Hfind.
    split_and!.
    + split; [done|]. intros (t & Hin & Ht).
      rewrite Forall_forall in Hfind. by destruct (Hfind t Hin).
    + intros _ c. apply Hc.
    + done.
    + intros c _. apply Hc.
Qed.

Lemma remove_from_queue_outcome_witness :
  let r := remove_from_queue 7 songB {[ 7 := [songA; songB; songC; songB] ]} in
  r.1 = true ∧ contents r.2 7 = [songA; songC; songB].
Proof.
  intros r.
  destruct (remove_from_queue_outcome 7 songB
              {[ 7 := [songA; songB; songC; songB] ]}) as (Hr & _ & _).
  split; [|reflexivity]. apply Hr. exists songB. split; [|by vm_compute].
  apply list_elem_of_lookup. by exists 1%nat.
Defined.

(** X2. Adding a song to a queue that has room and holds no song of the
    same title and url, and then removing it, gives every queue back as it
    was. *)
Theorem add_then_remove_round_trip (MAX_QUEUE_SIZE : Z) chat_id s qs :
  Z.of_nat (length (contents qs chat_id)) < MAX_QUEUE_SIZE →
  (∀ t, t ∈ contents qs chat_id → ¬ same_song s t) →
  let r1 := add_to_queue MAX_QUEUE_SIZE chat_id s qs in
  let r2 := remove_from_queue chat_id s r1.2 in
  r1.1 = Z.of_nat (length (contents qs chat_id)) + 1 ∧
  r2.1 = true ∧
  ∀ c, contents r2.2 c = contents qs c.
Proof.
  intros Hroom Hfresh r1 r2. unfold r2, r1.
  set (q := contents qs chat_id) in *.
  assert (Hq1 : contents (add_to_queue MAX_QUEUE_SIZE chat_id s qs).2 chat_id
                = q ++ [s]).
  { rewrite add_to_queue_contents. by rewrite decide_True. }
  assert (Hfind : list_find (same_song s) (q ++ [s])
                  = Some (length q, s)).
  { apply list_find_Some. split_and!.
    - by apply list_lookup_middle.
    - apply same_song_refl.
    - intros j u Hj Hlt. rewrite lookup_app_l in Hj by done.
      apply Hfresh. by eapply list_elem_of_lookup_2. }
  split_and!.
  - rewrite add_to_queue_fst. fold q.
    by destruct (Z.geb_spec (Z.of_nat (length q)) MAX_QUEUE_SIZE); [lia|].
  - by rewrite remove_from_queue_fst, Hq1, Hfind.
  - intros c. rewrite remove_from_queue_contents, Hq1, Hfind.
    case_decide as Hc; subst.
    + rewrite delete_middle. by rewrite app_nil_r.
    + rewrite add_to_queue_contents. rewrite decide_False; [done|].
      by intros [? _].
Qed.

Lemma add_then_remove_round_trip_witness :
  let qs : gmap Z (list Track) := {[ 7 := [songA; songB] ]} in
  contents (remove_from_queue 7 songC (add_to_queue 20 7 songC qs).2).2 7
  = [songA; songB].
Proof.
  intros qs.
  refine (proj2 (proj2 (add_then_remove_round_trip 20 7 songC qs _ _)) 7).
  - vm_compute. reflexivity.
  - intros t Ht [Htitle _].
    change (contents qs 7) with [songA; songB] in Ht.
    apply elem_of_cons in Ht as [->|Ht]; [discriminate|].
    apply elem_of_cons in Ht as [->|Ht]; [discriminate|].
    by apply elem_of_nil in Ht.
Defined.

(** X3. Removing the current song makes the former next song the current
    one (none, when there was no next song), and the queue one shorter. *)
Theorem next_song_becomes_current chat_id cur qs :
  (get_current_song chat_id qs).1 = Some cur →
  let r := remove_from_queue chat_id cur qs in
  r.1 = true ∧
  (get_current_song chat_id r.2).1 = (get_next_song chat_id qs).1 ∧
  contents r.2 chat_id = tail (contents qs chat_id) ∧
  (get_queue_size chat_id r.2).1 = (get_queue_size chat_id qs).1 - 1.
Proof.
  intros Hcur r. unfold r. rewrite get_current_song_fst in Hcur.
  rewrite !get_queue_size_fst, get_current_song_fst, get_next_song_fst,
    remove_from_queue_fst, remove_from_queue_contents.
  destruct (contents qs chat_id) as [|x rest]; [done|].
  injection Hcur as ->. rewrite list_find_head, decide_True by done.
  simpl. split_and!; try done.
  - by destruct rest.
  - lia.
Qed.

Lemma next_song_becomes_current_witness :
  let qs : gmap Z (list Track) := {[ 7 := [songA; songB; songC] ]} in
  (get_current_song 7 (remove_from_queue 7 songA qs).2).1 = Some songB.
Proof.
  intros qs.
  destruct (next_song_becomes_current 7 songA qs eq_refl) as (_ & H & _).
  exact (eq_trans H eq_refl).
Defined.

(** X4. [move_song] returns [True] exactly when both 1-based positions lie
    in [[1, size]]; otherwise no queue changes. When it succeeds the song
    that was at [from_position] is at [to_position], the other songs keep
    their relative order, no song is lost or added, and moving a song onto
    its own position changes nothing. Other chats are never touched. *)
Theorem move_song_outcome chat_id (a b : Z) qs :
  let r := move_song chat_id a b qs in
  let before := contents qs chat_id in
  let after := contents r.2 chat_id in
  (r.1 = true ↔ valid_position qs chat_id a ∧ valid_position qs chat_id b) ∧
  (r.1 = false → ∀ c, contents r.2 c = contents qs c) ∧
  (r.1 = true →
     is_Some (before !! Z.to_nat (a - 1)) ∧
     after !! Z.to_nat (b - 1) = before !! Z.to_nat (a - 1) ∧
     delete (Z.to_nat (b - 1)) after = delete (Z.to_nat (a - 1)) before ∧
     after ≡ₚ before ∧
     (a = b → after = before)) ∧
  (∀ c, c ≠ chat_id → contents r.2 c = contents qs c).
Proof.
  intros r before after. unfold after, r.
  destruct (decide (valid_position qs chat_id a ∧ valid_position qs chat_id b))
    as [[Ha Hb]|Hn].
  - destruct (move_song_valid chat_id a b qs Ha Hb) as (song & Hsong & Hr & Hc).
    fold before in Hsong, Hc. rewrite Hr.
    assert (Hlen : length (delete (Z.to_nat (a - 1)) before)
                   = (length before - 1)%nat) by (apply length_delete; eauto).
    assert (Hb' : (Z.to_nat (b - 1)
                   ≤ length (delete (Z.to_nat (a - 1)) before))%nat).
    { unfold valid_position in Hb. fold before in Hb. lia. }
    split_and!; try done.
    + intros _. rewrite (Hc chat_id), decide_True by done. split_and!.
      * eauto.
      * rewrite Hsong. by apply list_insert_at_lookup.
      * by apply delete_list_insert_at.
      * unfold list_insert_at. rewrite <- Permutation_middle, take_drop.
        symmetry. by apply delete_Permutation.
      * intros <-. by apply list_insert_at_delete.
    + intros c Hne. by rewrite Hc, decide_False.
  - destruct (move_song_invalid chat_id a b qs Hn) as [Hr Hc]. rewrite Hr.
    split_and!.
    + split; [done|]. intros Hv. by destruct Hn.
    + intros _ c. apply Hc.
    + done.
    + intros c _. apply Hc.
Qed.

Lemma move_song_outcome_witness :
  let qs : gmap Z (list Track) := {[ 7 := [songA; songB; songC] ]} in
  (move_song 7 3 1 qs).1 = true ∧
  contents (move_song 7 3 1 qs).2 7 = [songC; songA; songB] ∧
  (move_song 7 0 2 qs).1 = false ∧
  contents (move_song 7 0 2 qs).2 7 = [songA; songB; songC].
Proof.
  intros qs.
  destruct (move_song_outcome 7 3 1 qs) as (Hok & _).
  destruct (move_song_outcome 7 0 2 qs) as (_ & Hbad & _).
  split_and!; [|reflexivity|reflexivity|exact (eq_trans (Hbad eq_refl 7) eq_refl)].
  apply Hok. vm_compute. intuition congruence.
Defined.
End StoreWrites.

Section StoreRuns.
Implicit Types (qs : gmap Z (list Track)) (chat_id c : Z) (s : Track).

(** X5. Whatever [preserve_current] is, [shuffle_queue] returns [True]
    exactly when the queue holds more than one song, never loses or adds a
    song, and leaves other chats alone; without [preserve_current] the whole
    queue, head included, is what [random.shuffle] made of it. *)
Theorem shuffle_queue_keeps_songs (random_shuffle : list Track → list Track)
  chat_id (preserve_current : bool) qs :
  (∀ l, random_shuffle l ≡ₚ l) →
  let r := shuffle_queue random_shuffle chat_id preserve_current qs in
  let before := contents qs chat_id in
  (r.1 = true ↔ (1 < length before)%nat) ∧
  contents r.2 chat_id ≡ₚ before ∧
  (preserve_current = false → (1 < length before)%nat →
   contents r.2 chat_id = random_shuffle before) ∧
  (∀ c, c ≠ chat_id → contents r.2 c = contents qs c).
Proof.
  intros Hperm r before. unfold r.
  destruct (decide (length before ≤ 1)%nat) as [Hle|Hgt].
  - destruct (shuffle_queue_small random_shuffle chat_id preserve_current qs
                Hle) as [Hr Hc].
    rewrite Hr. split_and!.
    + split; [done|lia].
    + by rewrite Hc.
    + lia.
    + intros c _. apply Hc.
  - destruct (shuffle_queue_large random_shuffle chat_id preserve_current qs)
      as [Hr Hc]; [fold before; lia|].
    fold before in Hc. rewrite Hr. split_and!.
    + split; [lia|done].
    + rewrite Hc, decide_True by done.
      destruct preserve_current, before; by rewrite ?Hperm.
    + intros -> _. by rewrite Hc, decide_True.
    + intros c Hne. by rewrite Hc, decide_False.
Qed.

Lemma shuffle_queue_keeps_songs_witness :
  let qs : gmap Z (list Track) := {[ 7 := [songA; songB; songC] ]} in
  (shuffle_queue reverse 7 false qs).1 = true ∧
  contents (shuffle_queue reverse 7 false qs).2 7 = [songC; songB; songA].
Proof.
  intros qs.
  destruct (shuffle_queue_keeps_songs reverse 7 false qs) as (Hr & _ & Hc & _).
  - intros l. apply reverse_Permutation.
  - split; [apply Hr; vm_compute; lia|].
    rewrite Hc; [reflexivity|reflexivity|vm_compute; lia].
Defined.

(** X6. [clear_queue] returns [True] exactly when the chat has an entry in
    the dictionary, which any earlier call for that chat (even a read)
    has created; on a chat without an entry it returns [False] and leaves
    the store as it is. Afterwards the chat's queue is empty, other chats
    are untouched, and clearing again changes nothing. *)
Theorem clear_queue_outcome chat_id qs :
  let r := clear_queue chat_id qs in
  (r.1 = true ↔ is_Some (qs !! chat_id)) ∧
  (r.1 = false → r.2 = qs) ∧
  contents r.2 chat_id = [] ∧
  (∀ c, c ≠ chat_id → contents r.2 c = contents qs c) ∧
  (clear_queue chat_id r.2).2 = r.2 ∧
  (clear_queue chat_id (get_queue_size chat_id qs).2).1 = true.
Proof.
  intros r. unfold r. split_and!.
  - unfold clear_queue. destruct (qs !! chat_id) eqn:E; simpl.
    + split; [eauto|done].
    + split; [done|]. by intros [? ?].
  - unfold clear_queue. by destruct (qs !! chat_id).
  - by rewrite clear_queue_contents, decide_True.
  - intros c Hne. by rewrite clear_queue_contents, decide_False.
  - unfold clear_queue. destruct (qs !! chat_id) eqn:E; simpl.
    + rewrite lookup_insert_eq. by rewrite insert_insert_eq.
    + by rewrite E.
  - unfold clear_queue, get_queue_size.
    pose proof (getitem_entry chat_id qs) as [q Hq].
    destruct (getitem chat_id qs) as [q' qs1]. simpl in *. by rewrite Hq.
Qed.

Lemma apply_op_other M op qs c :
  c ≠ op_chat op → contents (apply_op M op qs) c = contents qs c.
Proof.
  intros Hne. destruct (is_read op) eqn:Hread.
  { rewrite read_op_store by done. apply contents_getitem. }
  destruct op; simpl in *; try done.
  - rewrite add_to_queue_contents. rewrite decide_False; [done|].
    intros [? _]. congruence.
  - rewrite remove_from_queue_contents.
    destruct (list_find _ _) as [[i x]|]; [|done].
    by rewrite decide_False by congruence.
  - rewrite clear_queue_contents. by rewrite decide_False by congruence.
  - destruct (decide (valid_position qs chat_id from_position
                      ∧ valid_position qs chat_id to_position))
      as [[Ha Hb]|Hn].
    + destruct (move_song_valid chat_id from_position to_position qs Ha Hb)
        as (song & _ & _ & Hc).
      rewrite Hc. by rewrite decide_False by congruence.
    + by apply move_song_invalid.
  - destruct (decide (length (contents qs chat_id) ≤ 1)%nat) as [Hle|Hgt].
    + by apply shuffle_queue_small.
    + destruct (shuffle_queue_large random_shuffle chat_id preserve_current
                  qs) as [_ Hc]; [lia|].
      rewrite Hc. by rewrite decide_False by congruence.
Qed.

(** X7. Chats do not share queue state: a run of store calls none of which
    is for chat [c] leaves the queue of [c] as it was. *)
Theorem run_ops_other_chat (MAX_QUEUE_SIZE : Z) (ops : list QueueOp) c :
  Forall (λ op, op_chat op ≠ c) ops →
  ∀ qs, contents (run_ops MAX_QUEUE_SIZE ops qs) c = contents qs c.
Proof.
  unfold run_ops.
  induction 1 as [|op ops Hop _ IH]; intros qs; [done|].
  simpl. rewrite IH. by apply apply_op_other.
Qed.

Lemma run_ops_other_chat_witness :
  contents (run_ops 20 [OpAdd 7 songB; OpClear 8; OpMove 7 1 2]
              {[ 9 := [songA] ]}) 9 = [songA].
Proof.
  refine (eq_trans (run_ops_other_chat 20
                      [OpAdd 7 songB; OpClear 8; OpMove 7 1 2] 9 _
                      {[ 9 := [songA] ]}) eq_refl).
  repeat constructor; simpl; lia.
Defined.

Lemma apply_op_no_new_song M op qs c :
  op_ok op → is_add op = false →
  contents (apply_op M op qs) c ⊆+ contents qs c.
Proof.
  intros Hok Hadd.
  destruct (decide (c = op_chat op)) as [->|Hne];
    [|by rewrite apply_op_other].
  destruct (is_read op) eqn:Hread.
  { rewrite read_op_store by done. by rewrite contents_getitem. }
  destruct op; simpl in *; try done.
  - rewrite remove_from_queue_contents.
    destruct (list_find _ _) as [[i x]|]; [|done].
    rewrite decide_True by done.
    apply sublist_submseteq, sublist_delete.
  - rewrite clear_queue_contents, decide_True by done.
    apply submseteq_nil_l.
  - destruct (decide (valid_position qs chat_id from_position
                      ∧ valid_position qs chat_id to_position))
      as [[Ha Hb]|Hn].
    + destruct (move_song_valid chat_id from_position to_position qs Ha Hb)
        as (song & Hsong & _ & Hc).
      rewrite Hc, decide_True by done.
      unfold list_insert_at. rewrite <- Permutation_middle, take_drop.
      by rewrite <- (delete_Permutation _ _ _ Hsong).
    + destruct (move_song_invalid chat_id from_position to_position qs Hn)
        as [_ Hc]. by rewrite Hc.
  - destruct (decide (length (contents qs chat_id) ≤ 1)%nat) as [Hle|Hgt].
    + destruct (shuffle_queue_small random_shuffle chat_id
                  preserve_current qs Hle) as [_ Hc]. by rewrite Hc.
    + destruct (shuffle_queue_large random_shuffle chat_id
                  preserve_current qs) as [_ Hc]; [lia|].
      rewrite Hc, decide_True by done.
      destruct preserve_current, (contents qs chat_id); by rewrite ?Hok.
Qed.

(** X10. Only [add_to_queue] can put a song into a queue: after a run of
    any other store calls, shuffles being reorderings, each queue holds a
    sub-multiset of the songs it held before. *)
Theorem run_ops_no_new_song (MAX_QUEUE_SIZE : Z) (ops : list QueueOp) :
  Forall op_ok ops → Forall (λ op, is_add op = false) ops →
  ∀ qs c, contents (run_ops MAX_QUEUE_SIZE ops qs) c ⊆+ contents qs c.
Proof.
  unfold run_ops. intros Hok.
  induction Hok as [|op ops Hop _ IH]; intros Hadd qs c; [done|].
  apply Forall_cons in Hadd as [Hadd Hrest]. simpl.
  etrans; [by apply IH|]. by apply apply_op_no_new_song.
Qed.

Lemma run_ops_no_new_song_witness :
  contents (run_ops 20 [OpMove 7 1 3; OpRemove 7 songB; OpShuffle 7 false reverse]
              {[ 7 := [songA; songB; songC] ]}) 7
  ⊆+ [songA; songB; songC].
Proof.
  refine (run_ops_no_new_song 20
            [OpMove 7 1 3; OpRemove 7 songB; OpShuffle 7 false reverse] _ _
            {[ 7 := [songA; songB; songC] ]} 7).
  - repeat constructor. intros l. simpl. apply reverse_Permutation.
  - repeat constructor.
Defined.
End StoreRuns.

(** * Further properties of the playback simulation *)
Section PlayerOps.
Implicit Types (p : Player) (chat_id c : Z).

Lemma session_state_ext p p' c :
  in_active p' c = in_active p c → paused_flag p' c = paused_flag p c →
  session_state p' c = session_state p c.
Proof.
  intros Ha Hp. unfold session_state, is_playing, is_paused.
  by rewrite Ha, Hp.
Qed.

Lemma session_state_playing p c :
  session_state p c = Playing ↔
  in_active p c = true ∧ paused_flag p c = false.
Proof.
  unfold session_state, is_playing, is_paused.
  destruct (in_active p c), (paused_flag p c); simpl; intuition congruence.
Qed.

Lemma paused_flag_insert p c chat_id v (m := paused_streams p) :
  default false (<[chat_id := v]> m !! c)
  = if decide (chat_id = c) then v else paused_flag p c.
Proof.
  unfold paused_flag, m. case_decide; subst.
  - by rewrite lookup_insert_eq.
  - by rewrite lookup_insert_ne.
Qed.

Lemma apply_player_op_other op p c :
  c ≠ player_op_chat op →
  in_active (apply_player_op op p) c = in_active p c ∧
  paused_flag (apply_player_op op p) c = paused_flag p c.
Proof.
  intros Hne.
  destruct op as [fs chat_id path|chat_id|chat_id|chat_id|chat_id]; simpl in *.
  - destruct (fs path) eqn:Hfs.
    + destruct (play_audio_started fs chat_id path p Hfs)
        as (_ & _ & Hact).
      split; [by rewrite Hact, bool_decide_eq_false_2|].
      unfold play_audio. rewrite Hfs. simpl. unfold paused_flag at 1. simpl.
      rewrite lookup_insert_ne by done.
      destruct (in_active p chat_id); [|done].
      by apply paused_flag_stop_audio.
    + by rewrite play_audio_failed.
  - split; [|by apply paused_flag_stop_audio].
    by rewrite in_active_stop_audio, bool_decide_eq_false_2, andb_true_r.
  - split; [apply in_active_pause_audio|].
    unfold pause_audio. destruct (_ || _); [done|].
    unfold paused_flag. simpl. by rewrite lookup_insert_ne.
  - split; [apply in_active_resume_audio|].
    unfold resume_audio. destruct (_ || _); [done|].
    unfold paused_flag. simpl. by rewrite lookup_insert_ne.
  - unfold simulate_playback_finish. destruct (_ && _); [|done].
    unfold in_active, paused_flag. simpl.
    by rewrite !lookup_delete_ne.
Qed.

Lemma stop_audio_ok chat_id p : player_ok p → player_ok (stop_audio chat_id p).2.
Proof.
  intros (Hdom & Htrue & Hthr & Hproc). unfold stop_audio.
  destruct (in_active p chat_id); [|done]. split_and!; simpl.
  - intros c. destruct (decide (c = chat_id)) as [->|Hne].
    + by rewrite !lookup_delete_eq.
    + rewrite !lookup_delete_ne by done. apply Hdom.
  - intros c v. destruct (decide (c = chat_id)) as [->|Hne].
    + by rewrite lookup_delete_eq.
    + rewrite lookup_delete_ne by done. apply Htrue.
  - intros c. destruct (decide (c = chat_id)) as [->|Hne].
    + rewrite lookup_delete_eq. by intros [? ?].
    + rewrite lookup_delete_ne by done. intros Hc%Hthr.
      apply elem_of_difference. split; [done|]. by apply not_elem_of_singleton.
  - rewrite Hproc. apply empty_difference_L.
Qed.

Lemma apply_player_op_ok op p : player_ok p → player_ok (apply_player_op op p).
Proof.
  intros Hok.
  destruct op as [fs chat_id path|chat_id|chat_id|chat_id|chat_id]; simpl.
  - unfold play_audio. destruct (fs path); simpl; [|done].
    assert (Hok1 : player_ok (if in_active p chat_id
                              then (stop_audio chat_id p).2 else p))
      by (destruct (in_active p chat_id); [by apply stop_audio_ok|done]).
    destruct Hok1 as (Hdom & Htrue & Hthr & Hproc).
    split_and!; simpl.
    + intros c. destruct (decide (c = chat_id)) as [->|Hne].
      * rewrite !lookup_insert_eq. split; eauto.
      * rewrite !lookup_insert_ne by done. apply Hdom.
    + intros c v. destruct (decide (c = chat_id)) as [->|Hne].
      * rewrite lookup_insert_eq. congruence.
      * rewrite lookup_insert_ne by done. apply Htrue.
    + intros c. destruct (decide (c = chat_id)) as [->|Hne].
      * intros _. by apply elem_of_union_l, elem_of_singleton.
      * rewrite lookup_insert_ne by done. intros Hc%Hthr.
        by apply elem_of_union_r.
    + done.
  - by apply stop_audio_ok.
  - unfold pause_audio. destruct (in_active p chat_id) eqn:Hact; [|done].
    destruct (paused_flag p chat_id); [done|]. simpl.
    destruct Hok as (Hdom & Htrue & Hthr & Hproc).
    apply bool_decide_eq_true in Hact.
    split_and!; simpl; try done.
    intros c. destruct (decide (c = chat_id)) as [->|Hne].
    + rewrite lookup_insert_eq. split; eauto.
    + rewrite lookup_insert_ne by done. apply Hdom.
  - unfold resume_audio. destruct (in_active p chat_id) eqn:Hact; [|done].
    destruct (paused_flag p chat_id); [|done]. simpl.
    destruct Hok as (Hdom & Htrue & Hthr & Hproc).
    apply bool_decide_eq_true in Hact.
    split_and!; simpl; try done.
    intros c. destruct (decide (c = chat_id)) as [->|Hne].
    + rewrite lookup_insert_eq. split; eauto.
    + rewrite lookup_insert_ne by done. apply Hdom.
  - unfold simulate_playback_finish. destruct (_ && _); [|done].
    destruct Hok as (Hdom & Htrue & Hthr & Hproc).
    split_and!; simpl; try done.
    + intros c. destruct (decide (c = chat_id)) as [->|Hne].
      * by rewrite !lookup_delete_eq.
      * rewrite !lookup_delete_ne by done. apply Hdom.
    + intros c v. destruct (decide (c = chat_id)) as [->|Hne].
      * by rewrite lookup_delete_eq.
      * rewrite lookup_delete_ne by done. apply Htrue.
    + intros c. destruct (decide (c = chat_id)) as [->|Hne].
      * rewrite lookup_delete_eq. by intros [? ?].
      * rewrite lookup_delete_ne by done. apply Hthr.
Qed.

Lemma init_ok : player_ok MusicPlayer.init.
Proof.
  split_and!; simpl; try done; intros c; rewrite ?lookup_empty; try done.
Qed.

Lemma run_player_ops_ok ops p : player_ok p → player_ok (run_player_ops ops p).
Proof.
  unfold run_player_ops. revert p.
  induction ops as [|op ops IH]; intros p Hok; [done|].
  simpl. by apply IH, apply_player_op_ok.
Qed.
End PlayerOps.

Section PlayerExtras.
Implicit Types (p : Player) (chat_id c : Z).

(** X11. [pause_audio] succeeds exactly when the chat is Playing and then
    leaves it Paused; [resume_audio] succeeds exactly when the chat is
    Paused and then leaves it Playing. A call that fails leaves the player
    exactly as it was, and neither call changes another chat's state. *)
Theorem pause_resume_outcome chat_id p :
  let r := pause_audio chat_id p in
  let r' := resume_audio chat_id p in
  (r.1 = true ↔ session_state p chat_id = Playing) ∧
  (r.1 = true → session_state r.2 chat_id = Paused) ∧
  (r.1 = false → r.2 = p) ∧
  (r'.1 = true ↔ session_state p chat_id = Paused) ∧
  (r'.1 = true → session_state r'.2 chat_id = Playing) ∧
  (r'.1 = false → r'.2 = p) ∧
  (∀ c, c ≠ chat_id →
        session_state r.2 c = session_state p c ∧
        session_state r'.2 c = session_state p c).
Proof.
  intros r r'. unfold r, r'.
  split_and!.
  - rewrite session_state_playing. unfold pause_audio.
    destruct (in_active p chat_id), (paused_flag p chat_id); simpl;
      intuition congruence.
  - unfold pause_audio.
    destruct (in_active p chat_id) eqn:Ha, (paused_flag p chat_id); simpl;
      try done.
    intros _. apply session_state_paused. split; [done|].
    unfold paused_flag. simpl. by rewrite lookup_insert_eq.
  - unfold pause_audio. by destruct (_ || _).
  - rewrite session_state_paused. unfold resume_audio.
    destruct (in_active p chat_id), (paused_flag p chat_id); simpl;
      intuition congruence.
  - unfold resume_audio.
    destruct (in_active p chat_id) eqn:Ha, (paused_flag p chat_id); simpl;
      try done.
    intros _. apply session_state_playing. split; [done|].
    unfold paused_flag. simpl. by rewrite lookup_insert_eq.
  - unfold resume_audio. by destruct (_ || _).
  - intros c Hne.
    destruct (apply_player_op_other (PPause chat_id) p c Hne).
    destruct (apply_player_op_other (PResume chat_id) p c Hne).
    split; by apply session_state_ext.
Qed.

(** X12. From a Playing chat, pause followed by resume both succeed and
    bring every chat back to the state it had; a second pause in a row
    fails. When the player has the shape the methods maintain, the pause
    and resume leave the player exactly as it was. *)
Theorem pause_resume_round_trip chat_id p :
  session_state p chat_id = Playing →
  let r1 := pause_audio chat_id p in
  let r2 := resume_audio chat_id r1.2 in
  r1.1 = true ∧
  (pause_audio chat_id r1.2).1 = false ∧
  r2.1 = true ∧
  (∀ c, session_state r2.2 c = session_state p c) ∧
  (player_ok p → r2.2 = p).
Proof.
  intros Hplaying r1 r2. unfold r2, r1.
  apply session_state_playing in Hplaying as [Hact Hflag].
  set (p1 := {| active_streams := active_streams p;
                paused_streams := <[chat_id:=true]> (paused_streams p);
                current_processes := current_processes p;
                playback_threads := playback_threads p |}).
  assert (Hp1 : pause_audio chat_id p = (true, p1))
    by (unfold pause_audio; by rewrite Hact, Hflag).
  assert (Hact1 : in_active p1 chat_id = true) by done.
  assert (Hflag1 : paused_flag p1 chat_id = true)
    by (unfold paused_flag, p1; simpl; by rewrite lookup_insert_eq).
  set (p2 := {| active_streams := active_streams p;
                paused_streams := <[chat_id:=false]> (paused_streams p1);
                current_processes := current_processes p;
                playback_threads := playback_threads p |}).
  assert (Hp2 : resume_audio chat_id p1 = (true, p2))
    by (unfold resume_audio; by rewrite Hact1, Hflag1).
  rewrite Hp1. simpl. rewrite Hp2. simpl.
  split_and!; try done.
  - unfold pause_audio. by rewrite Hact1, Hflag1.
  - intros c. apply session_state_ext; [done|].
    unfold paused_flag. simpl. rewrite insert_insert_eq.
    destruct (decide (c = chat_id)) as [->|Hne].
    + rewrite lookup_insert_eq. symmetry. exact Hflag.
    + by rewrite lookup_insert_ne.
  - intros (Hdom & _). unfold p2, p1. simpl.
    destruct p as [act pau proc thr]. simpl in *.
    f_equal. rewrite insert_insert_eq. apply insert_id.
    apply bool_decide_eq_true in Hact. simpl in Hact.
    apply Hdom in Hact as [v Hv].
    unfold paused_flag in Hflag. simpl in Hflag.
    rewrite Hv in Hflag |- *. simpl in Hflag. by subst.
Qed.

Lemma pause_resume_round_trip_witness :
  let p := (play_audio (λ _, true) 7 "./downloads/A.mp3"
              MusicPlayer.init).2 in
  (resume_audio 7 (pause_audio 7 p).2).2 = p.
Proof.
  intros p.
  destruct (pause_resume_round_trip 7 p) as (_ & _ & _ & _ & H).
  - reflexivity.
  - apply H. apply (apply_player_op_ok (PPlay (λ _, true) 7 "./downloads/A.mp3")).
    apply init_ok.
Defined.


(** X14. [play_audio] returns whether the file exists. When it does not, the
    player is left exactly as it was, even if something was playing. When
    it does, the chat is Playing afterwards whatever its state was (a
    paused chat is unpaused). Other chats keep their state either way. *)
Theorem play_audio_outcome (path_exists : string → bool) chat_id path p :
  let r := play_audio path_exists chat_id path p in
  r.1 = path_exists path ∧
  (r.1 = false → r.2 = p) ∧
  (r.1 = true →
     session_state r.2 chat_id = Playing ∧
     active_streams r.2 !! chat_id = Some true ∧
     paused_streams r.2 !! chat_id = Some false ∧
     chat_id ∈ playback_threads r.2) ∧
  (∀ c, c ≠ chat_id → session_state r.2 c = session_state p c).
Proof.
  intros r. unfold r. rewrite play_audio_fst. split_and!; try done.
  - apply play_audio_failed.
  - intros Hfs. split; [by apply play_audio_started|].
    unfold play_audio. rewrite Hfs. simpl.
    rewrite !lookup_insert_eq. split_and!; try done.
    by apply elem_of_union_l, elem_of_singleton.
  - intros c Hne.
    destruct (apply_player_op_other (PPlay path_exists chat_id path) p c Hne).
    by apply session_state_ext.
Qed.

(** X15. When the playback thread of a chat reaches its end, a Playing chat
    becomes Idle with its stream entries dropped, while a Paused or Idle
    chat is left exactly as it was; the thread handle stays registered, and
    other chats keep their state. *)
Theorem simulate_playback_finish_outcome chat_id p :
  let p' := simulate_playback_finish chat_id p in
  (session_state p chat_id = Playing →
     session_state p' chat_id = Idle ∧
     active_streams p' !! chat_id = None ∧
     paused_streams p' !! chat_id = None) ∧
  (session_state p chat_id ≠ Playing → p' = p) ∧
  playback_threads p' = playback_threads p ∧
  (∀ c, c ≠ chat_id → session_state p' c = session_state p c).
Proof.
  intros p'. unfold p'. split_and!.
  - intros [Hact Hflag]%session_state_playing.
    unfold simulate_playback_finish. rewrite Hact, Hflag. simpl.
    split_and!; try apply lookup_delete_eq.
    apply session_state_idle. unfold in_active. simpl.
    rewrite lookup_delete_eq. by apply bool_decide_eq_false_2, is_Some_None.
  - intros Hnot. unfold simulate_playback_finish.
    destruct (in_active p chat_id) eqn:Hact,
             (paused_flag p chat_id) eqn:Hflag; simpl; try done.
    destruct Hnot. by apply session_state_playing.
  - unfold simulate_playback_finish. by destruct (_ && _).
  - intros c Hne.
    destruct (apply_player_op_other (PFinish chat_id) p c Hne).
    by apply session_state_ext.
Qed.

Lemma simulate_playback_finish_outcome_witness :
  let p := (play_audio (λ _, true) 7 "./downloads/A.mp3"
              MusicPlayer.init).2 in
  session_state (simulate_playback_finish 7 p) 7 = Idle ∧
  simulate_playback_finish 7 (pause_audio 7 p).2 = (pause_audio 7 p).2.
Proof.
  intros p.
  destruct (simulate_playback_finish_outcome 7 p) as (Hplaying & _).
  destruct (simulate_playback_finish_outcome 7 (pause_audio 7 p).2)
    as (_ & Hpaused & _).
  split; [apply Hplaying; reflexivity|apply Hpaused; by vm_compute].
Defined.

(** X16. Every player state that calls of [play_audio], [stop_audio],
    [pause_audio], [resume_audio] and thread ends produce from the fresh
    player keeps the dictionaries in step: a chat has a paused entry
    exactly when it has an active entry, every active entry is [True],
    every active chat has a thread handle, and [current_processes] stays
    empty. *)
Theorem player_dictionaries_in_step (ops : list PlayerOp) :
  player_ok (run_player_ops ops MusicPlayer.init).
Proof. apply run_player_ops_ok, init_ok. Qed.

(** X17. Chats do not share player state: a run of player calls none of
    which is for chat [c] leaves the state of [c] as it was. *)
Theorem run_player_ops_other_chat (ops : list PlayerOp) c :
  Forall (λ op, player_op_chat op ≠ c) ops →
  ∀ p, session_state (run_player_ops ops p) c = session_state p c.
Proof.
  unfold run_player_ops.
  induction 1 as [|op ops Hop _ IH]; intros p; [done|].
  simpl. rewrite IH.
  destruct (apply_player_op_other op p c); [done|].
  by apply session_state_ext.
Qed.

Lemma run_player_ops_other_chat_witness :
  let p := (play_audio (λ _, true) 7 "./downloads/A.mp3"
              MusicPlayer.init).2 in
  session_state
    (run_player_ops [PPlay (λ _, true) 8 "./downloads/B.mp3"; PPause 8;
                     PStop 9] p) 7 = Playing.
Proof.
  intros p.
  refine (eq_trans (run_player_ops_other_chat
                      [PPlay (λ _, true) 8 "./downloads/B.mp3"; PPause 8;
                       PStop 9] 7 _ p) eq_refl).
  repeat constructor; simpl; lia.
Defined.
End PlayerExtras.

(** * Further properties of the command handlers *)
Section HandlerFootprint.
Implicit Types (b : Bot) (chat_id c : Z) (path_exists : string → bool).

(** What a handler does to the bot is a run of store calls and a run of
    player calls, all of them for the chat of the update. *)
Lemma handle_footprint M path_exists u b :
  ∃ ops pops,
    queue_manager (exec (handle M path_exists u) b)
    = run_ops M ops (queue_manager b) ∧
    music_player (exec (handle M path_exists u) b)
    = run_player_ops pops (music_player b) ∧
    Forall (λ op, op_chat op = update_chat u ∧ op_ok op) ops ∧
    Forall (λ op, player_op_chat op = update_chat u) pops.
Proof.
  destruct u as [c|c|c args result|c|c|c|c|c|c|c]; cbn [handle update_chat].
  - by exists [], [].
  - by exists [], [].
  - destruct args as [|a args]; [by exists [], []|].
    destruct result as [r|]; [|by exists [], []].
    unfold play_command. step_handler.
    destruct ((add_to_queue M c r (queue_manager b)).1 =? 1); step_handler.
    + destruct (play_audio path_exists c (file_path r) (music_player b)).1;
        simpl; step_handler.
      * exists [OpAdd c r], [PPlay path_exists c (file_path r)].
        split_and!; [done|done|by repeat constructor|by repeat constructor].
      * exists [OpAdd c r; OpRemove c r], [PPlay path_exists c (file_path r)].
        split_and!; [done|done|by repeat constructor|by repeat constructor].
    + exists [OpAdd c r], [].
      split_and!; [done|done|by repeat constructor|by repeat constructor].
  - unfold pause_command. step_handler.
    exists [], [PPause c].
    destruct (pause_audio c (music_player b)).1; step_handler;
      (split_and!; [done|done|by repeat constructor|by repeat constructor]).
  - unfold resume_command. step_handler.
    exists [], [PResume c].
    destruct (resume_audio c (music_player b)).1; step_handler;
      (split_and!; [done|done|by repeat constructor|by repeat constructor]).
  - unfold stop_command. step_handler.
    exists [OpClear c], [PStop c].
    split_and!; [done|done|by repeat constructor|by repeat constructor].
  - unfold skip_command. step_handler.
    destruct (get_current_song c (queue_manager b)).1 as [cur|] eqn:Hcur;
      step_handler.
    + destruct (get_current_song c
                  (remove_from_queue c cur
                     (get_current_song c (queue_manager b)).2).2).1
        as [next|] eqn:Hnext; step_handler.
      * exists [OpCurrent c; OpRemove c cur; OpCurrent c],
               [PPlay path_exists c (file_path next)].
        split_and!; [done|done|by repeat constructor|by repeat constructor].
      * exists [OpCurrent c; OpRemove c cur; OpCurrent c], [PStop c].
        split_and!; [done|done|by repeat constructor|by repeat constructor].
    + exists [OpCurrent c], [].
      split_and!; [done|done|by repeat constructor|by repeat constructor].
  - unfold queue_command. step_handler.
    exists [OpGet c], [].
    destruct (get_queue c (queue_manager b)).1; step_handler;
      (split_and!; [done|done|by repeat constructor|by repeat constructor]).
  - unfold _handle_song_finished. step_handler.
    destruct (get_current_song c (queue_manager b)).1 as [cur|] eqn:Hcur;
      step_handler.
    + destruct (get_current_song c
                  (remove_from_queue c cur
                     (get_current_song c (queue_manager b)).2).2).1
        as [next|] eqn:Hnext; step_handler.
      * exists [OpCurrent c; OpRemove c cur; OpCurrent c],
               [PPlay path_exists c (file_path next)].
        split_and!; [done|done|by repeat constructor|by repeat constructor].
      * exists [OpCurrent c; OpRemove c cur; OpCurrent c], [PStop c].
        split_and!; [done|done|by repeat constructor|by repeat constructor].
    + destruct (get_current_song c
                  (get_current_song c (queue_manager b)).2).1
        as [next|] eqn:Hnext; step_handler.
      * exists [OpCurrent c; OpCurrent c],
               [PPlay path_exists c (file_path next)].
        split_and!; [done|done|by repeat constructor|by repeat constructor].
      * exists [OpCurrent c; OpCurrent c], [PStop c].
        split_and!; [done|done|by repeat constructor|by repeat constructor].
  - exists [], [PFinish c].
    split_and!; [done|done|by repeat constructor|by repeat constructor].
Qed.

(** Whatever every store call and every player call for the chat of an
    update keeps, the handler of the update keeps. *)
Lemma handle_keeps (Pq : gmap Z (list Track) → Prop) (Pp : Player → Prop)
  M path_exists u b :
  (∀ op qs, op_chat op = update_chat u → op_ok op →
            Pq qs → Pq (apply_op M op qs)) →
  (∀ op p, player_op_chat op = update_chat u →
           Pp p → Pp (apply_player_op op p)) →
  Pq (queue_manager b) → Pp (music_player b) →
  Pq (queue_manager (exec (handle M path_exists u) b)) ∧
  Pp (music_player (exec (handle M path_exists u) b)).
Proof.
  intros Hq Hp Hq0 Hp0.
  destruct (handle_footprint M path_exists u b)
    as (ops & pops & -> & -> & Hops & Hpops).
  split.
  - unfold run_ops. revert Hq0. generalize (queue_manager b).
    induction Hops as [|op ops [Hc Hok] _ IH]; intros qs Hqs; [done|].
    simpl. by apply IH, Hq.
  - unfold run_player_ops. revert Hp0. generalize (music_player b).
    induction Hpops as [|op pops Hc _ IH]; intros p Hpp; [done|].
    simpl. by apply IH, Hp.
Qed.
End HandlerFootprint.

Section BotInvariants.
Implicit Types (b : Bot) (chat_id c : Z) (path_exists : string → bool).



(** X19. With a bound [0 <= MAX_QUEUE_SIZE], in every bot a run of updates
    can produce, no queue holds more than [MAX_QUEUE_SIZE] songs, and the
    player's dictionaries are in step (paused entries exactly for active
    chats, active entries all [True], a thread handle for every active
    chat, no process handle). *)
Theorem reachable_bot_bounded (MAX_QUEUE_SIZE : Z) b :
  0 <= MAX_QUEUE_SIZE → reachable MAX_QUEUE_SIZE b →
  (∀ c, Z.of_nat (length (contents (queue_manager b) c)) <= MAX_QUEUE_SIZE) ∧
  player_ok (music_player b).
Proof.
  intros HM. induction 1 as [|b path_exists u _ [IHq IHp]].
  - split; [|apply init_ok]. intros c. unfold contents. simpl.
    rewrite lookup_empty. simpl. lia.
  - apply (handle_keeps
             (λ qs, ∀ c, Z.of_nat (length (contents qs c)) <= MAX_QUEUE_SIZE)
             player_ok); try done.
    + intros op qs _ Hok Hqs. by apply apply_op_bound.
    + intros op p _ Hp. by apply apply_player_op_ok.
Qed.

Lemma reachable_bot_bounded_witness :
  let b := exec (handle 1 (λ _, true) (CmdPlay 7 ["b"] (Some songB)))
             (exec (handle 1 (λ _, true) (CmdPlay 7 ["a"] (Some songA)))
                MusicBot.init) in
  Z.of_nat (length (contents (queue_manager b) 7)) <= 1.
Proof.
  intros b. refine (proj1 (reachable_bot_bounded 1 b _ _) 7).
  - lia.
  - apply reachable_step, reachable_step, reachable_init.
Defined.

(** X20. Chats do not share state: handling an update for one chat leaves
    the queue and the session state of every other chat as they were. *)
Theorem handle_other_chat (MAX_QUEUE_SIZE : Z) path_exists u b c :
  c ≠ update_chat u →
  let b' := exec (handle MAX_QUEUE_SIZE path_exists u) b in
  contents (queue_manager b') c = contents (queue_manager b) c ∧
  session_state (music_player b') c = session_state (music_player b) c.
Proof.
  intros Hne b'. unfold b'.
  destruct (handle_keeps
              (λ qs, contents qs c = contents (queue_manager b) c)
              (λ p, in_active p c = in_active (music_player b) c ∧
                    paused_flag p c = paused_flag (music_player b) c)
              MAX_QUEUE_SIZE path_exists u b) as [Hq [Ha Hp]]; try done.
  - intros op qs Hc _ <-. apply apply_op_other. congruence.
  - intros op p Hc [<- <-]. apply apply_player_op_other. congruence.
  - split; [done|]. by apply session_state_ext.
Qed.

Lemma handle_other_chat_witness :
  let b := exec (run 20 [((λ _, true), CmdPlay 7 ["a"] (Some songA))])
             MusicBot.init in
  let b' := exec (handle 20 (λ _, true) (CmdStop 8)) b in
  contents (queue_manager b') 7 = [songA] ∧
  session_state (music_player b') 7 = Playing.
Proof.
  intros b b'.
  destruct (handle_other_chat 20 (λ _, true) (CmdStop 8) b 7) as [Hq Hs].
  - simpl. lia.
  - split; [exact (eq_trans Hq eq_refl)|exact (eq_trans Hs eq_refl)].
Defined.
End BotInvariants.

Section TransportCommands.
Implicit Types (b : Bot) (chat_id c : Z) (path_exists : string → bool).

Lemma stop_audio_inactive chat_id p :
  in_active p chat_id = false → (stop_audio chat_id p).2 = p.
Proof. intros H. unfold stop_audio. by rewrite H. Qed.

Lemma pause_audio_fst chat_id p :
  (pause_audio chat_id p).1 = is_playing p chat_id.
Proof.
  unfold pause_audio, is_playing.
  by destruct (in_active p chat_id), (paused_flag p chat_id).
Qed.

Lemma resume_audio_fst chat_id p :
  (resume_audio chat_id p).1 = is_paused p chat_id.
Proof.
  unfold resume_audio, is_paused.
  by destruct (in_active p chat_id), (paused_flag p chat_id).
Qed.

Lemma pause_audio_inactive chat_id p :
  in_active p chat_id = false →
  (pause_audio chat_id p).2 = p ∧ (resume_audio chat_id p).2 = p.
Proof. intros H. unfold pause_audio, resume_audio. by rewrite H. Qed.

(** X21. [/stop] works from every state: it calls the backend's stop,
    clears the queue and replies; the chat is then Idle with an empty
    queue. After that, no update for the chat other than a [/play] changes
    the player or any queue: a late finished event or thread end, a second
    [/stop], a [/skip], [/pause] or [/resume] all leave the bot as it is. *)
Theorem stop_command_outcome (MAX_QUEUE_SIZE : Z) path_exists chat_id b :
  let b' := exec (stop_command chat_id) b in
  trace (stop_command chat_id) b = [BackendStop chat_id; Reply MsgStopped] ∧
  session_state (music_player b') chat_id = Idle ∧
  contents (queue_manager b') chat_id = [] ∧
  ∀ u, update_chat u = chat_id → ¬ is_play_for chat_id (path_exists, u) →
       bot_equiv (exec (handle MAX_QUEUE_SIZE path_exists u) b') b'.
Proof.
  intros b'.
  assert (Hp : music_player b' = (stop_audio chat_id (music_player b)).2)
    by (unfold b', stop_command; by step_handler).
  assert (Hq : ∀ c, contents (queue_manager b') c
                    = if decide (chat_id = c) then []
                      else contents (queue_manager b) c).
  { intros c. unfold b', stop_command. step_handler.
    apply clear_queue_contents. }
  assert (Hidle : session_state (music_player b') chat_id = Idle)
    by (rewrite Hp; apply stop_audio_idle).
  assert (Hempty : contents (queue_manager b') chat_id = [])
    by (by rewrite Hq, decide_True).
  assert (Hact : in_active (music_player b') chat_id = false)
    by by apply session_state_idle.
  split_and!; try done.
  { unfold stop_command. by step_handler. }
  intros u Hu Hplay. clearbody b'.
  destruct u as [c|c|c args result|c|c|c|c|c|c|c]; simpl in Hu; subst c;
    cbn [handle].
  - apply bot_equiv_refl.
  - apply bot_equiv_refl.
  - by destruct Hplay.
  - unfold pause_command. step_handler.
    destruct (pause_audio_inactive chat_id (music_player b') Hact) as [E _].
    destruct (pause_audio chat_id (music_player b')).1; step_handler;
      rewrite E; by destruct b'.
  - unfold resume_command. step_handler.
    destruct (pause_audio_inactive chat_id (music_player b') Hact) as [_ E].
    destruct (resume_audio chat_id (music_player b')).1; step_handler;
      rewrite E; by destruct b'.
  - unfold stop_command. step_handler. split; simpl.
    + by apply stop_audio_inactive.
    + intros c. rewrite clear_queue_contents. case_decide; by subst.
  - by apply skip_command_empty.
  - unfold queue_command. step_handler.
    assert (Hc : ∀ c, contents (get_queue chat_id (queue_manager b')).2 c
                      = contents (queue_manager b') c)
      by (intros c; apply contents_getitem).
    destruct (get_queue chat_id (queue_manager b')).1; step_handler;
      by split.
  - destruct (handle_song_finished_empty path_exists chat_id b' Hempty)
      as (Hp' & Hc' & _).
    split; [|done]. rewrite Hp'. by apply stop_audio_inactive.
  - unfold playback_thread_finish, exec. simpl. split; simpl; [|done].
    unfold simulate_playback_finish. by rewrite Hact.
Qed.

Lemma stop_command_outcome_witness :
  let b := exec (handle 20 (λ _, true) (CmdPlay 7 ["a"] (Some songA)))
             MusicBot.init in
  let b' := exec (stop_command 7) b in
  music_player (exec (handle 20 (λ _, true) (SongFinished 7)) b')
  = music_player b' ∧
  contents (queue_manager (exec (handle 20 (λ _, true) (SongFinished 7)) b')) 7
  = [].
Proof.
  intros b b'.
  destruct (stop_command_outcome 20 (λ _, true) 7 b) as (_ & _ & Hq & Hlate).
  destruct (Hlate (SongFinished 7)) as [Hp Hc].
  - reflexivity.
  - simpl. tauto.
  - split; [exact Hp|]. exact (eq_trans (Hc 7) Hq).
Defined.

(** X22. [/pause] and [/resume] never touch a queue. [/pause] pauses and
    confirms exactly when the chat is Playing, [/resume] resumes and
    confirms exactly when the chat is Paused; in every other state the
    command replies that there is nothing to pause or resume and the bot
    stays exactly as it was. *)
Theorem pause_resume_commands chat_id b :
  let pc := pause_command chat_id in
  let rc := resume_command chat_id in
  queue_manager (exec pc b) = queue_manager b ∧
  queue_manager (exec rc b) = queue_manager b ∧
  (session_state (music_player b) chat_id = Playing →
     trace pc b = [BackendPause chat_id true; Reply MsgPaused] ∧
     session_state (music_player (exec pc b)) chat_id = Paused) ∧
  (session_state (music_player b) chat_id ≠ Playing →
     trace pc b = [BackendPause chat_id false; Reply MsgNoActivePlayback] ∧
     exec pc b = b) ∧
  (session_state (music_player b) chat_id = Paused →
     trace rc b = [BackendResume chat_id true; Reply MsgResumed] ∧
     session_state (music_player (exec rc b)) chat_id = Playing) ∧
  (session_state (music_player b) chat_id ≠ Paused →
     trace rc b = [BackendResume chat_id false; Reply MsgNoPausedPlayback] ∧
     exec rc b = b).
Proof.
  intros pc rc. unfold pc, rc, pause_command, resume_command.
  step_handler. rewrite pause_audio_fst, resume_audio_fst.
  set (p := music_player b).
  assert (Hpl : is_playing p chat_id = true ↔ session_state p chat_id = Playing).
  { rewrite session_state_playing. unfold is_playing.
    destruct (in_active p chat_id), (paused_flag p chat_id); simpl;
      intuition congruence. }
  assert (Hpa : is_paused p chat_id = true ↔ session_state p chat_id = Paused).
  { rewrite session_state_paused. unfold is_paused.
    destruct (in_active p chat_id), (paused_flag p chat_id); simpl;
      intuition congruence. }
  split_and!.
  - by destruct (is_playing p chat_id); step_handler.
  - by destruct (is_paused p chat_id); step_handler.
  - intros Hs. pose proof Hs as [Ha Hf]%session_state_playing.
    apply Hpl in Hs. rewrite Hs. step_handler. split; [done|]. simpl.
    apply session_state_paused. unfold pause_audio. fold p.
    rewrite Ha, Hf. simpl. split; [done|].
    unfold paused_flag. simpl. by rewrite lookup_insert_eq.
  - intros Hs. destruct (is_playing p chat_id) eqn:E;
      [destruct Hs; by apply Hpl|].
    step_handler. split; [done|].
    rewrite <- pause_audio_fst in E. unfold pause_audio in *. fold p in E |- *.
    destruct (_ || _); [by destruct b|done].
  - intros Hs. pose proof Hs as [Ha Hf]%session_state_paused.
    apply Hpa in Hs. rewrite Hs. step_handler. split; [done|]. simpl.
    apply session_state_playing. unfold resume_audio. fold p.
    rewrite Ha, Hf. simpl. split; [done|].
    unfold paused_flag. simpl. by rewrite lookup_insert_eq.
  - intros Hs. destruct (is_paused p chat_id) eqn:E;
      [destruct Hs; by apply Hpa|].
    step_handler. split; [done|].
    rewrite <- resume_audio_fst in E. unfold resume_audio in *. fold p in E |- *.
    destruct (_ || _); [by destruct b|done].
Qed.

Lemma pause_resume_commands_witness :
  let b := exec (handle 20 (λ _, true) (CmdPlay 7 ["a"] (Some songA)))
             MusicBot.init in
  trace (pause_command 7) b = [BackendPause 7 true; Reply MsgPaused] ∧
  trace (resume_command 7) b
  = [BackendResume 7 false; Reply MsgNoPausedPlayback].
Proof.
  intros b.
  destruct (pause_resume_commands 7 b) as (_ & _ & Hp & _ & _ & Hr).
  split; [apply Hp; reflexivity|apply Hr; by vm_compute].
Defined.
End TransportCommands.

Section StartsAndReplies.
Implicit Types (b : Bot) (chat_id c : Z) (path_exists : string → bool).

Ltac pick_event H :=
  repeat (apply elem_of_cons in H as [H|H]; [try discriminate H|]);
  try (by apply elem_of_nil in H).

(** X23. Every call of the backend's start that a handler makes is for the
    chat of the update and succeeds exactly when the file exists. After a
    successful start the chat is Playing and the started file is the file
    of the song at the head of the chat's queue; a failed start leaves the
    player exactly as it was. *)
Theorem backend_start_outcome (MAX_QUEUE_SIZE : Z) path_exists u b c path ok :
  BackendStart c path ok ∈ trace (handle MAX_QUEUE_SIZE path_exists u) b →
  let b' := exec (handle MAX_QUEUE_SIZE path_exists u) b in
  c = update_chat u ∧
  ok = path_exists path ∧
  (ok = true →
     session_state (music_player b') c = Playing ∧
     ∃ t, head (contents (queue_manager b') c) = Some t ∧ file_path t = path) ∧
  (ok = false → music_player b' = music_player b).
Proof.
  intros Hin b'. unfold b'. clear b'.
  assert (Hadvance : ∀ (m : Handler unit) cur next rest chat_id,
    contents (queue_manager b) chat_id = cur :: next :: rest →
    music_player (exec m b)
    = (play_audio path_exists chat_id (file_path next) (music_player b)).2 →
    (∀ c', contents (queue_manager (exec m b)) c'
           = if decide (chat_id = c') then next :: rest
             else contents (queue_manager b) c') →
    BackendStart c path ok
    = BackendStart chat_id (file_path next) (path_exists (file_path next)) →
    c = chat_id ∧ ok = path_exists path ∧
    (ok = true →
       session_state (music_player (exec m b)) c = Playing ∧
       ∃ t, head (contents (queue_manager (exec m b)) c) = Some t
            ∧ file_path t = path) ∧
    (ok = false → music_player (exec m b) = music_player b)).
  { intros m cur next rest chat_id Hq Hp Hc Heq.
    injection Heq as -> -> ->. rewrite Hp, Hc, decide_True by done.
    split_and!; try done.
    - intros Hfs. split; [by apply play_audio_started|]. by exists next.
    - intros Hfs. by apply play_audio_failed. }
  destruct u as [c0|c0|c0 args result|c0|c0|c0|c0|c0|c0|c0];
    cbn [handle update_chat] in *.
  - unfold start_command, trace, emit in Hin. simpl in Hin. pick_event Hin.
  - unfold help_command, start_command, trace, emit in Hin. simpl in Hin.
    pick_event Hin.
  - destruct args as [|a args].
    { destruct (play_command_no_args MAX_QUEUE_SIZE path_exists c0 result b)
        as [_ Ht]. rewrite Ht in Hin. pick_event Hin. }
    destruct result as [r|].
    2:{ destruct (play_command_no_result MAX_QUEUE_SIZE path_exists c0 a args b)
          as [_ Ht]. rewrite Ht in Hin. pick_event Hin. }
    destruct (play_command_some MAX_QUEUE_SIZE path_exists c0 a args r b)
      as (Hfull & Hmore & Hstart & Hfail).
    set (q := contents (queue_manager b) c0) in *.
    destruct (Z_le_gt_dec MAX_QUEUE_SIZE (Z.of_nat (length q))) as [Hle|Hgt].
    { destruct (Hfull Hle) as [_ Ht]. rewrite Ht in Hin. pick_event Hin. }
    assert (Hlt : Z.of_nat (length q) < MAX_QUEUE_SIZE) by lia.
    destruct (decide (q = [])) as [Hq|Hq].
    2:{ destruct (Hmore Hlt Hq) as (_ & _ & Ht). rewrite Ht in Hin.
        pick_event Hin. }
    destruct (path_exists (file_path r)) eqn:Hfs.
    + destruct (Hstart Hlt Hq eq_refl) as (Hp & Hc & Ht).
      rewrite Ht in Hin. pick_event Hin. injection Hin as -> -> ->.
      rewrite Hp, Hc, decide_True by done. split_and!; try done.
      intros _. split; [by apply play_audio_started|]. by exists r.
    + destruct (Hfail Hlt Hq eq_refl) as [[Hp Hc] Ht].
      rewrite Ht in Hin. pick_event Hin. injection Hin as -> -> ->.
      by rewrite Hp.
  - unfold pause_command in Hin. revert Hin. step_handler.
    destruct (pause_audio c0 (music_player b)).1; step_handler;
      intros Hin; simpl in Hin; pick_event Hin.
  - unfold resume_command in Hin. revert Hin. step_handler.
    destruct (resume_audio c0 (music_player b)).1; step_handler;
      intros Hin; simpl in Hin; pick_event Hin.
  - unfold stop_command in Hin. revert Hin. step_handler.
    intros Hin; simpl in Hin; pick_event Hin.
  - destruct (contents (queue_manager b) c0) as [|cur [|next rest]] eqn:Hq.
    + destruct (skip_command_empty path_exists c0 b Hq) as [_ Ht].
      rewrite Ht in Hin. pick_event Hin.
    + destruct (skip_command_last path_exists c0 b cur Hq) as (_ & _ & Ht).
      rewrite Ht in Hin. pick_event Hin.
    + destruct (skip_command_next path_exists c0 b cur next rest Hq)
        as (Hp & Hc & Ht).
      rewrite Ht in Hin. pick_event Hin.
      by apply (Hadvance _ cur next rest c0).
  - unfold queue_command in Hin. revert Hin. step_handler.
    destruct (get_queue c0 (queue_manager b)).1; step_handler;
      intros Hin; simpl in Hin; pick_event Hin.
  - destruct (contents (queue_manager b) c0) as [|cur [|next rest]] eqn:Hq.
    + destruct (handle_song_finished_empty path_exists c0 b Hq)
        as (_ & _ & Ht).
      rewrite Ht in Hin. pick_event Hin.
    + destruct (handle_song_finished_last path_exists c0 b cur Hq)
        as (_ & _ & Ht).
      rewrite Ht in Hin. pick_event Hin.
    + destruct (handle_song_finished_next path_exists c0 b cur next rest Hq)
        as (Hp & Hc & Ht).
      rewrite Ht in Hin. pick_event Hin.
      by apply (Hadvance _ cur next rest c0).
  - unfold playback_thread_finish, trace in Hin. simpl in Hin.
    by apply elem_of_nil in Hin.
Qed.

Lemma backend_start_outcome_witness :
  let b := {| queue_manager := {[ 7 := [songA; songB] ]};
              music_player := MusicPlayer.init |} in
  let b' := exec (handle 20 (λ _, true) (CmdSkip 7)) b in
  session_state (music_player b') 7 = Playing ∧
  ∃ t, head (contents (queue_manager b') 7) = Some t ∧
       file_path t = "./downloads/B.mp3".
Proof.
  intros b b'.
  destruct (backend_start_outcome 20 (λ _, true) (CmdSkip 7) b 7
              "./downloads/B.mp3" true) as (_ & _ & H & _).
  - vm_compute. apply list_elem_of_further, list_elem_of_here.
  - exact (H eq_refl).
Defined.
End StartsAndReplies.

Section Replies.
Implicit Types (b : Bot) (chat_id c : Z) (path_exists : string → bool).

(** X24. What [/play] replies follows the number [add_to_queue] returns.
    With 1 it announces the song as now playing and calls start, adding the
    failure message when the start fails. With any other number it reports
    the song as added at that position and leaves the player alone; this
    includes [-1] from a full queue, where the reply still says added (at
    position -1) although no queue changed. *)
Theorem play_command_replies (MAX_QUEUE_SIZE : Z) path_exists chat_id a args
  r b :
  let cmd :=
    play_command MAX_QUEUE_SIZE path_exists chat_id (a :: args) (Some r) in
  let pos := (add_to_queue MAX_QUEUE_SIZE chat_id r (queue_manager b)).1 in
  let searching := Reply (MsgSearching (join_args (a :: args))) in
  (pos ≠ 1 →
     trace cmd b = [searching; Edit (MsgAddedToQueue pos (title r))] ∧
     music_player (exec cmd b) = music_player b) ∧
  (pos = 1 →
     trace cmd b
     = [searching; Edit (MsgNowPlaying (title r));
        BackendStart chat_id (file_path r) (path_exists (file_path r))]
       ++ (if path_exists (file_path r) then [] else [Reply MsgFailedToJoin])) ∧
  (pos = -1 → bot_equiv (exec cmd b) b).
Proof.
  intros cmd pos searching. unfold pos, cmd.
  destruct (play_command_some MAX_QUEUE_SIZE path_exists chat_id a args r b)
    as (Hfull & Hmore & Hstart & Hfail).
  rewrite add_to_queue_fst.
  set (q := contents (queue_manager b) chat_id) in *.
  destruct (Z.geb_spec (Z.of_nat (length q)) MAX_QUEUE_SIZE) as [Hle|Hlt].
  - destruct (Hfull Hle) as [[Hp Hc] Ht]. by split_and!.
  - destruct (decide (q = [])) as [Hq|Hq].
    + assert (Hone : Z.of_nat (length q) + 1 = 1) by (by rewrite Hq).
      split_and!; try (intros; lia). intros _.
      destruct (path_exists (file_path r)) eqn:Hfs.
      * by destruct (Hstart Hlt Hq eq_refl) as (_ & _ & ->).
      * by destruct (Hfail Hlt Hq eq_refl) as [_ ->].
    + assert (Hmany : Z.of_nat (length q) + 1 ≠ 1).
      { destruct (length q) eqn:E; [by apply nil_length_inv in E|lia]. }
      destruct (Hmore Hlt Hq) as (Hp & _ & Ht).
      split_and!; try (intros; lia). by intros _.
Qed.

Lemma play_command_replies_witness :
  let b := exec (handle 1 (λ _, true) (CmdPlay 7 ["a"] (Some songA)))
             MusicBot.init in
  trace (play_command 1 (λ _, true) 7 ["b"] (Some songB)) b
  = [Reply (MsgSearching "b"); Edit (MsgAddedToQueue (-1) "B")] ∧
  contents
    (queue_manager (exec (play_command 1 (λ _, true) 7 ["b"] (Some songB)) b))
    7 = [songA].
Proof.
  intros b.
  destruct (play_command_replies 1 (λ _, true) 7 "b" [] songB b)
    as (Hother & _ & Hfull).
  destruct Hother as [Ht _]; [by vm_compute|].
  destruct Hfull as [_ Hc]; [reflexivity|].
  split; [exact Ht|exact (eq_trans (Hc 7) eq_refl)].
Defined.

(** X25. [/queue] changes neither the player nor what any queue holds. On
    an empty queue it replies that the queue is empty; otherwise it lists
    the titles of the first ten songs at most, in queue order, and the
    count of the songs it left out, which is positive exactly when more
    than ten songs are queued. *)
Theorem queue_command_listing chat_id b :
  let q := contents (queue_manager b) chat_id in
  bot_equiv (exec (queue_command chat_id) b) b ∧
  (q = [] → trace (queue_command chat_id) b = [Reply MsgQueueEmpty]) ∧
  (q ≠ [] →
     ∃ titles remaining,
       trace (queue_command chat_id) b
       = [Reply (MsgQueueList titles remaining)] ∧
       titles = take 10 (title <$> q) ∧
       (length titles ≤ 10)%nat ∧
       Z.of_nat (length titles) + remaining = Z.of_nat (length q) ∧
       (0 < remaining ↔ (10 < length q)%nat)).
Proof.
  intros q. unfold queue_command, get_queue. step_handler.
  rewrite getitem_fst. fold q.
  assert (Hc : ∀ c, contents (getitem chat_id (queue_manager b)).2 c
                    = contents (queue_manager b) c)
    by (intros c; apply contents_getitem).
  destruct q as [|x q'] eqn:Hq; step_handler.
  - split_and!; try done.
  - split_and!; try done. intros _.
    eexists _, _. split; [reflexivity|].
    rewrite fmap_take, length_take, length_fmap.
    change (length (x :: q')) with (S (length q')).
    split_and!; try done; lia.
Qed.

Lemma queue_command_listing_witness :
  let b := {| queue_manager := {[ 7 := replicate 12 songA ]};
              music_player := MusicPlayer.init |} in
  trace (queue_command 7) b = [Reply (MsgQueueList (replicate 10 "A") 2)].
Proof.
  intros b.
  destruct (queue_command_listing 7 b) as (_ & _ & H).
  destruct H as (titles & remaining & Ht & _); [by vm_compute|].
  reflexivity.
Defined.
End Replies.

(** * File names *)
Section Sanitize.
Import YouTubeDownloader.
Implicit Types (s l : list ascii) (c : ascii) (chars : list ascii).


(** The replacement loop as one pass over the name. *)
Lemma replace_loop chars s :
  "_"%char ∉ chars →
  foldl (λ acc char, replace_char char "_"%char acc) s chars
  = (λ c, if decide (c ∈ chars) then "_"%char else c) <$> s.
Proof.
  revert s. induction chars as [|x chars IH]; intros s Hnot; simpl.
  - induction s as [|c s IHs]; [done|]. by rewrite fmap_cons, <- IHs.
  - apply not_elem_of_cons in Hnot as [Hx Hnot].
    rewrite IH by done. unfold replace_char. rewrite <- list_fmap_compose.
    apply list_fmap_ext. intros _ c _. simpl.
    destruct (decide (c = x)) as [->|Hne].
    + rewrite decide_False by done. rewrite decide_True; [done|].
      apply elem_of_cons. by left.
    + destruct (decide (c ∈ chars)) as [Hin|Hout].
      * rewrite decide_True; [done|]. apply elem_of_cons. by right.
      * rewrite decide_False; [done|].
        intros [?|?]%elem_of_cons; done.
Qed.











End Sanitize.

Section SanitizeClaims.
Import YouTubeDownloader.
Implicit Types (filename : string) (c : ascii).



Lemma lstrip_all chars (s : list ascii) :
  (∀ c, c ∈ s → c ∈ chars) → lstrip chars s = [].
Proof.
  induction s as [|x s IH]; simpl; [done|]. intros H.
  rewrite decide_True by (apply H, elem_of_cons; by left).
  apply IH. intros c Hc. apply H, elem_of_cons. by right.
Qed.




(** X28. A title that has nothing but spaces and dots (the empty title
    included) is named [unknown_song]. *)
Theorem sanitize_filename_fallback filename :
  (∀ c, c ∈ list_ascii_of_string filename → c ∈ strip_chars) →
  _sanitize_filename filename = "unknown_song".
Proof.
  intros Hall. unfold _sanitize_filename, sanitize_chars.
  rewrite replace_loop by (apply (bool_decide_unpack _); by vm_compute).
  set (s := list_ascii_of_string filename) in *.
  assert (((λ c, if decide (c ∈ invalid_chars) then "_"%char else c) <$> s) = s)
    as ->.
  { rewrite <- (list_fmap_id s) at 2. apply list_fmap_ext. intros i c Hc.
    rewrite decide_False; [done|].
    assert (Hs : c ∈ strip_chars) by (by eapply Hall, list_elem_of_lookup_2).
    apply elem_of_cons in Hs as [->|Hs]; [apply (bool_decide_unpack _); by vm_compute|].
    apply list_elem_of_singleton in Hs as ->. apply (bool_decide_unpack _). by vm_compute. }
  assert (Hstrip : strip strip_chars
                     (if (100 <? length s)%nat then take 100 s else s) = []).
  { unfold strip. rewrite lstrip_all; [done|]. intros c Hc. apply Hall.
    destruct (100 <? length s)%nat; [|done]. by eapply subseteq_take. }
  by rewrite Hstrip.
Qed.

Lemma sanitize_filename_fallback_witness :
  _sanitize_filename " . .. " = "unknown_song".
Proof.
  apply sanitize_filename_fallback.
  apply Forall_forall. apply (bool_decide_unpack _). by vm_compute.
Defined.
End SanitizeClaims.

(** * Worked examples for the properties above *)
Section ExtraExamples.
Import YouTubeDownloader.

Lemma clear_queue_outcome_witness :
  (clear_queue 7 (∅ : gmap Z (list Track))).1 = false ∧
  (clear_queue 7 (get_queue_size 7 (∅ : gmap Z (list Track))).2).1 = true ∧
  contents (clear_queue 7 {[ 7 := [songA; songB] ]}).2 7 = [].
Proof.
  destruct (clear_queue_outcome 7 (∅ : gmap Z (list Track)))
    as (_ & _ & _ & _ & _ & Hread).
  destruct (clear_queue_outcome 7 {[ 7 := [songA; songB] ]})
    as (_ & _ & Hempty & _).
  split_and!; [reflexivity|exact Hread|exact Hempty].
Defined.

Lemma get_queue_status_agrees_witness :
  let qs : gmap Z (list Track) := {[ 7 := [songA; songB] ]} in
  status_is_full (get_queue_status 2 7 qs).1 = true ∧
  (add_to_queue 2 7 songC qs).1 = -1 ∧
  status_next_song (get_queue_status 2 7 qs).1 = Some songB.
Proof.
  intros qs.
  destruct (get_queue_status_agrees 2 7 songC qs)
    as (_ & _ & _ & Hnext & Hfull & _).
  split_and!; [reflexivity|by apply Hfull|exact (eq_trans Hnext eq_refl)].
Defined.

Lemma pause_resume_outcome_witness :
  let p := (play_audio (λ _, true) 7 "./downloads/A.mp3"
              MusicPlayer.init).2 in
  (pause_audio 7 p).1 = true ∧
  session_state (pause_audio 7 p).2 7 = Paused ∧
  (resume_audio 7 p).2 = p.
Proof.
  intros p.
  destruct (pause_resume_outcome 7 p) as (Hp & Hs & _ & _ & _ & Hr & _).
  assert (H1 : (pause_audio 7 p).1 = true) by (by apply Hp).
  split_and!; [exact H1|exact (Hs H1)|apply Hr; reflexivity].
Defined.


Lemma play_audio_outcome_witness :
  let p := (pause_audio 7 (play_audio (λ _, true) 7 "./downloads/A.mp3"
                             MusicPlayer.init).2).2 in
  session_state p 7 = Paused ∧
  session_state (play_audio (λ _, true) 7 "./downloads/B.mp3" p).2 7
  = Playing ∧
  (play_audio (λ _, false) 7 "./downloads/B.mp3" p).2 = p.
Proof.
  intros p.
  destruct (play_audio_outcome (λ _, true) 7 "./downloads/B.mp3" p)
    as (_ & _ & Hok & _).
  destruct (play_audio_outcome (λ _, false) 7 "./downloads/B.mp3" p)
    as (_ & Hfail & _).
  split_and!; [reflexivity|apply Hok; reflexivity|apply Hfail; reflexivity].
Defined.

Lemma player_dictionaries_in_step_witness :
  player_ok (run_player_ops
               [PPlay (λ _, true) 7 "./downloads/A.mp3"; PPause 7; PFinish 7;
                PPlay (λ _, true) 8 "./downloads/B.mp3"; PStop 7]
               MusicPlayer.init).
Proof.
  exact (player_dictionaries_in_step
           [PPlay (λ _, true) 7 "./downloads/A.mp3"; PPause 7; PFinish 7;
            PPlay (λ _, true) 8 "./downloads/B.mp3"; PStop 7]).
Defined.

End ExtraExamples.
